(** * Elementary routing, part 1: the MTZ travelling-salesman model

    A shallow embedding of the notebook [routing-part1.ipynb]: the cost
    matrix filled from the external travel-time lookup, the docplex model
    (binary arc variables, integer rank variables, degree constraints,
    Miller-Tucker-Zemlin constraints, rank bounds), the objective, the
    edge filter [get_edges] and the networkx digraph built from it.

    Numbers.  Python integers are [Z].  numpy's float64 entries and the
    solver's [solution_value]s are modelled by rationals [Q]: every finite
    float is a rational, and float comparison is exact comparison of those
    rationals; rounding of [/] and of sums is not modelled. *)

From Stdlib Require Import ZArith QArith Qabs Lia Lqa String.
From stdpp Require Import base list sorting.

Local Open Scope Z_scope.

(** ** Exceptions and the lookup monad *)

(** What a cell of the notebook can raise: the external directions lookup
    failing for a pair of coordinates, an index out of range, a solution
    value read from a model that has no solution. *)
Inductive exn : Type :=
  | LookupFailed (a b : string)
  | IndexError
  | NoSolution.

Inductive outcome (A : Type) : Type :=
  | Ok (a : A)
  | Raise (e : exn).
Arguments Ok {A} a.
Arguments Raise {A} e.

(** One call of [get_distance(a,b)]. *)
Definition call : Type := (string * string)%type.

(** Computations that call the external service: the log of the calls
    made so far is threaded through, and a raised exception stops the
    computation with the log as it is then. *)
Definition ext (A : Type) : Type := list call -> list call * outcome A.

Definition ret {A} (a : A) : ext A := fun log => (log, Ok a).

Definition bind {A B} (m : ext A) (k : A -> ext B) : ext B :=
  fun log =>
    match m log with
    | (log', Ok a) => k a log'
    | (log', Raise e) => (log', Raise e)
    end.

Definition raise {A} (e : exn) : ext A := fun log => (log, Raise e).

Notation "x <- m ;; k" := (bind m (fun x => k))
  (at level 100, m at next level, right associativity).

(** [for i in l: body], the loop variable being the accumulated state. *)
Fixpoint for_each {A S} (l : list A) (body : A -> S -> ext S) (s : S) : ext S :=
  match l with
  | [] => ret s
  | a :: l' => s' <- body a s ;; for_each l' body s'
  end.

(** ** The cost matrix *)

Abbreviation matrix := (list (list Q)).

(** [np.zeros((n,n))] *)
Definition zeros (n : nat) : matrix := replicate n (replicate n 0%Q).

(** [M[i,j]]; numpy raises on an index out of range. *)
Definition get (M : matrix) (i j : nat) : option Q :=
  row ← M !! i; row !! j.

(** [M[i,j] = v] *)
Definition set (M : matrix) (i j : nat) (v : Q) : matrix :=
  alter (fun row => <[j := v]> row) i M.

(** [M.flatten()], a fresh row-major copy. *)
Definition flatten (M : matrix) : list Q := concat M.

(** [range(n)] *)
Definition range (n : nat) : list nat := seq 0 n.

Section Lookup.

(** The external collaborator behind [get_distance]: the duration in
    seconds of the drive from [a] to [b], or no answer. *)
Variable directions : string -> string -> option Z.

(** [get_distance(a,b)] *)
Definition get_distance (a b : string) : ext Z :=
  fun log =>
    (log ++ [(a, b)],
     match directions a b with
     | Some secs => Ok secs
     | None => Raise (LookupFailed a b)
     end).

(** [location[i]] *)
Definition item (location : list string) (i : nat) : ext string :=
  match location !! i with
  | Some a => ret a
  | None => raise IndexError
  end.

(** The cell that fills the matrix:
<<
    n=len(location)
    cost=np.zeros((n,n))
    for i in range(n):
        for j in range(n):
            cost[i,j]=get_distance(location[i],location[j])/3600
>> *)
Definition fill_entry (location : list string) (i j : nat) (cost : matrix)
  : ext matrix :=
  a <- item location i ;;
  b <- item location j ;;
  secs <- get_distance a b ;;
  ret (set cost i j (inject_Z secs / 3600)%Q).

Definition fill_row (location : list string) (n i : nat) (cost : matrix)
  : ext matrix :=
  for_each (range n) (fun j => fill_entry location i j) cost.

Definition fill_cost (location : list string) : ext matrix :=
  let n := length location in
  for_each (range n) (fun i => fill_row location n i) (zeros n).

End Lookup.

(** The sentinel of the cell [for i in range(n): cost[i,i]=1e+12]. *)
Definition sentinel : Q := inject_Z (10 ^ 12).

Definition set_diagonal (n : nat) (cost : matrix) : matrix :=
  fold_left (fun M i => set M i i sentinel) (range n) cost.

(** ** The docplex model *)

(** The decision variables: [x[i,j]] of [binary_var_dict] and [u[i]] of
    [integer_var_dict]. *)
Inductive var : Type :=
  | x_ (i j : nat)
  | u_ (i : nat).

Global Instance var_eq_dec : EqDecision var.
Proof. solve_decision. Defined.

(** A linear expression over the integers, term by term as it is written:
    coefficient and variable. *)
Definition linexpr : Type := list (Z * var).

Inductive sense : Type := EQ | LE.

(** [lhs == rhs] or [lhs <= rhs] as handed to [add_constraint]. *)
Record constraint : Type := Constraint {
  lhs : linexpr;
  rel : sense;
  rhs : Z
}.

(** The objective handed to [model.minimize]: real coefficients. *)
Definition objective : Type := list (Q * var).

Record Model : Type := mkModel {
  binary_vars : list (nat * nat);   (* keys of [x] *)
  integer_vars : list nat;          (* keys of [u], each with [lb=0] *)
  constraints : list constraint;
  minimized : option objective
}.

(** [model=Model("tsp")] *)
Definition empty_model : Model := mkModel [] [] [] None.

(** [lbl=range(len(location))] and the keys
    [[(i, j) for i in lbl for j in lbl]] of [x]. *)
Definition x_keys (lbl : list nat) : list (nat * nat) :=
  i ← lbl; j ← lbl; [(i, j)].

(** [[i for i in lbl]], the keys of [u]. *)
Definition u_keys (lbl : list nat) : list nat := i ← lbl; [i].

(** [model.sum(x[i,j] for j in lbl)==1] *)
Definition out_degree (lbl : list nat) (i : nat) : constraint :=
  Constraint (j ← lbl; [(1, x_ i j)]) EQ 1.

(** [model.sum(x[i,j] for i in lbl)==1] *)
Definition in_degree (lbl : list nat) (j : nat) : constraint :=
  Constraint (i ← lbl; [(1, x_ i j)]) EQ 1.

Definition c_1_4 (lbl : list nat) : list constraint :=
  i ← lbl; [out_degree lbl i].

Definition c_1_5 (lbl : list nat) : list constraint :=
  j ← lbl; [in_degree lbl j].

(** [def exclude(A,i): return [a for a in A if a!=i]] *)
Definition exclude (A : list nat) (i : nat) : list nat :=
  filter (fun a => a ≠ i) A.

(** [u[i]-u[j]+n*x[i,j]<=n-1] *)
Definition mtz (n : Z) (i j : nat) : constraint :=
  Constraint [(1, u_ i); (-1, u_ j); (n, x_ i j)] LE (n - 1).

(** The loop
<<
      for i in exclude(lbl,0):
          for j in [k for k in exclude(lbl,0) if k!=i]:
              c_1_13.append(model.add_constraint(u[i]-u[j]+n*x[i,j]<=n-1))
>> *)
Definition c_1_13 (n : Z) (lbl : list nat) : list constraint :=
  i ← exclude lbl 0%nat;
  j ← filter (fun k => k ≠ i) (exclude lbl 0%nat);
  [mtz n i j].

(** [u[i]<=n-1] *)
Definition rank_bound (n : Z) (i : nat) : constraint :=
  Constraint [(1, u_ i)] LE (n - 1).

Definition c_1_14 (n : Z) (lbl : list nat) : list constraint :=
  i ← lbl; [rank_bound n i].

(** The model after the cells that declare the variables and add the
    four constraint lists, in the order of the notebook. *)
Definition build_model (n : nat) : Model :=
  let lbl := range n in
  mkModel (x_keys lbl) (u_keys lbl)
    (c_1_4 lbl ++ c_1_5 lbl ++
     c_1_13 (Z.of_nat n) lbl ++ c_1_14 (Z.of_nat n) lbl)
    None.

(** [sorted(x.keys())]: insertion sort by the lexicographic order on
    pairs. *)
Definition key_leb (a b : nat * nat) : bool :=
  (a.1 <? b.1)%nat || ((a.1 =? b.1)%nat && (a.2 <=? b.2)%nat).

Fixpoint insert_key (a : nat * nat) (l : list (nat * nat)) : list (nat * nat) :=
  match l with
  | [] => [a]
  | b :: l' => if key_leb a b then a :: l else b :: insert_key a l'
  end.

Definition sorted (l : list (nat * nat)) : list (nat * nat) :=
  foldr insert_key [] l.

(** [model.dot(vars, coefs)]: the terms [coef*var], pairwise. *)
Definition dot (vars : list var) (coefs : list Q) : objective :=
  zip coefs vars.

(** [loss=model.dot([x[k] for k in sorted(x.keys())], cost.flatten())] *)
Definition loss (m : Model) (cost : matrix) : objective :=
  dot (map (fun k => x_ k.1 k.2) (sorted (binary_vars m))) (flatten cost).

(** [model.minimize(loss)] *)
Definition minimize (m : Model) (l : objective) : Model :=
  mkModel (binary_vars m) (integer_vars m) (constraints m) (Some l).

(** [model.print_information()]: the numbers of binary variables, of
    integer variables and of constraints. *)
Definition information (m : Model) : nat * nat * nat :=
  (length (binary_vars m), length (integer_vars m), length (constraints m)).

(** ** What a model means *)

(** A value for every variable. *)
Definition assignment : Type := var -> Z.

Definition eval (a : assignment) (e : linexpr) : Z :=
  foldr (fun t acc => t.1 * a t.2 + acc) 0 e.

Definition satisfies (a : assignment) (c : constraint) : Prop :=
  match rel c with
  | EQ => eval a (lhs c) = rhs c
  | LE => eval a (lhs c) <= rhs c
  end.

(** [a] respects the variable types (binary; integer with lower bound 0)
    and every constraint of [m]. *)
Definition feasible (m : Model) (a : assignment) : Prop :=
  (forall k, k ∈ binary_vars m -> a (x_ k.1 k.2) = 0 \/ a (x_ k.1 k.2) = 1) /\
  (forall i, i ∈ integer_vars m -> 0 <= a (u_ i)) /\
  (forall c, c ∈ constraints m -> satisfies a c).

(** The value of an objective under an assignment. *)
Definition value (a : assignment) (o : objective) : Q :=
  foldr (fun t acc => t.1 * inject_Z (a t.2) + acc)%Q 0%Q o.

(** [a] is an optimal solution of the minimisation of [o] under [m]. *)
Definition optimal (m : Model) (o : objective) (a : assignment) : Prop :=
  feasible m a /\ forall b, feasible m b -> (value a o <= value b o)%Q.

(** The arcs an assignment selects. *)
Definition selected (a : assignment) (i j : nat) : Prop := a (x_ i j) = 1.

(** ** Solution, edges and the digraph *)

(** What [model.solve()] leaves behind: a [solution_value] for every
    variable. *)
Definition solution_values : Type := var -> Q.

(** [x.items()] once solved: every key of [x] with the solution value of
    its variable, in the order of the keys. *)
Definition items (keys : list (nat * nat)) (sol : solution_values)
  : list ((nat * nat) * Q) :=
  map (fun k => (k, sol (x_ k.1 k.2))) keys.

(** [def get_edges(x): return (k for k,v in x.items() if v.solution_value==1)] *)
Definition get_edges (x : list ((nat * nat) * Q)) : list (nat * nat) :=
  kv ← x; if Qeq_bool kv.2 1 then [kv.1] else [].

(** A networkx [DiGraph]: its adjacency, which keeps for every node, in
    the order the nodes were added, the successors of the node in the
    order they were added. *)
Record DiGraph : Type := mkDiGraph {
  adj : list (nat * list nat)
}.

(** [G.nodes]: the nodes in the order they were added. *)
Definition nodes (g : DiGraph) : list nat := (adj g).*1.

(** [G.edges]: node by node, the arcs to the successors of the node. *)
Definition edges (g : DiGraph) : list (nat * nat) :=
  ua ← adj g; v ← ua.2; [(ua.1, v)].

(** A node that is not yet in the graph enters it last, without
    successors. *)
Definition add_node (v : nat) (g : DiGraph) : DiGraph :=
  if decide (v ∈ nodes g) then g else mkDiGraph (adj g ++ [(v, [])]).

(** [v] becomes the last successor of [u], unless it is one already. *)
Definition add_successor (u v : nat) (ua : nat * list nat)
  : nat * list nat :=
  if decide (ua.1 = u)
  then if decide (v ∈ ua.2) then ua else (ua.1, ua.2 ++ [v])
  else ua.

(** One edge [(u,v)] of [add_edges_from]: [u], then [v], is added as a
    node if new, then [v] as a successor of [u]. *)
Definition add_edge (e : nat * nat) (g : DiGraph) : DiGraph :=
  let g' := add_node e.2 (add_node e.1 g) in
  mkDiGraph (add_successor e.1 e.2 <$> adj g').

(** [G.add_edges_from(es)] *)
Definition add_edges_from (es : list (nat * nat)) (g : DiGraph) : DiGraph :=
  fold_left (fun g e => add_edge e g) es g.

(** ** The notebook, cell by cell *)

(** The global names the cells read and write. *)
Record notebook : Type := mkNotebook {
  cost : matrix;
  model : Model;
  solution : option solution_values;
  G : DiGraph
}.

Section Run.

Variable directions : string -> string -> option Z.

(** The MILP solver behind [model.solve()]: solution values, or no
    solution. *)
Variable solver : Model -> option solution_values.

Variable location : list string.

Definition n : nat := length location.

(** The matrix is filled; nothing else exists yet. *)
Definition cell_cost : ext notebook :=
  M <- fill_cost directions location ;;
  ret (mkNotebook M empty_model None (mkDiGraph [])).

(** Variables and the four constraint lists. *)
Definition cell_constraints (s : notebook) : notebook :=
  mkNotebook (cost s) (build_model n) (solution s) (G s).

(** [for i in range(n): cost[i,i]=1e+12] *)
Definition cell_sentinel (s : notebook) : notebook :=
  mkNotebook (set_diagonal n (cost s)) (model s) (solution s) (G s).

(** [loss=...] and [model.minimize(loss)] *)
Definition cell_objective (s : notebook) : notebook :=
  mkNotebook (cost s) (minimize (model s) (loss (model s) (cost s)))
    (solution s) (G s).

(** [solution=model.solve()] *)
Definition cell_solve (s : notebook) : notebook :=
  mkNotebook (cost s) (model s) (solver (model s)) (G s).

(** [G=nx.DiGraph()] and [G.add_edges_from(get_edges(x))]; reading a
    solution value of an unsolved model raises. *)
Definition cell_graph (s : notebook) : ext notebook :=
  match solution s with
  | Some sol =>
      ret (mkNotebook (cost s) (model s) (solution s)
             (add_edges_from (get_edges (items (binary_vars (model s)) sol))
                (mkDiGraph [])))
  | None => raise NoSolution
  end.

(** The stages up to and including the assembled, not yet solved
    model. *)
Definition assemble : ext notebook :=
  s <- cell_cost ;;
  ret (cell_objective (cell_sentinel (cell_constraints s))).

(** The whole notebook. *)
Definition run : ext notebook :=
  s <- assemble ;;
  cell_graph (cell_solve s).

End Run.

(** * Notions used by the properties *)

(** ** Feasibility of the assembled model *)

(** [sum(f(j) for j in l)] over the integers. *)
Definition sumZ (f : nat -> Z) (l : list nat) : Z :=
  foldr (fun j acc => f j + acc) 0 l.

(** Feasibility for the assembled model, unfolded. *)
Record tsp_feasible (n : nat) (a : assignment) : Prop := {
  tf_binary : forall i j, (i < n)%nat -> (j < n)%nat ->
      a (x_ i j) = 0 \/ a (x_ i j) = 1;
  tf_lb : forall i, (i < n)%nat -> 0 <= a (u_ i);
  tf_out : forall i, (i < n)%nat -> sumZ (fun j => a (x_ i j)) (range n) = 1;
  tf_in : forall j, (j < n)%nat -> sumZ (fun i => a (x_ i j)) (range n) = 1;
  tf_mtz : forall i j, (i < n)%nat -> (j < n)%nat ->
      i ≠ 0%nat -> j ≠ 0%nat -> i ≠ j ->
      a (u_ i) - a (u_ j) + Z.of_nat n * a (x_ i j) <= Z.of_nat n - 1;
  tf_ub : forall i, (i < n)%nat -> a (u_ i) <= Z.of_nat n - 1
}.

Global Instance selected_dec (a : assignment) (i j : nat) :
  Decision (selected a i j).
Proof. unfold selected. apply _. Defined.

(** How many selected arcs leave node [i] and how many enter node [j],
    self-arcs counted. *)
Definition arcs_out (n : nat) (a : assignment) (i : nat) : nat :=
  length (filter (fun j => selected a i j) (range n)).

Definition arcs_in (n : nat) (a : assignment) (j : nat) : nat :=
  length (filter (fun i => selected a i j) (range n)).

(** [sum(x[i,j] for j in lbl if j != i)], the sum over the other nodes. *)
Definition sum_others (a : assignment) (lbl : list nat) (i : nat) : Z :=
  sumZ (fun j => a (x_ i j)) (exclude lbl i).

(** ** Walks, cycles and tours *)

(** The walk that starts at [v] and then visits the nodes of [w] in turn,
    every step satisfying [step]. *)
Fixpoint along (step : nat -> nat -> Prop) (v : nat) (w : list nat) : Prop :=
  match w with
  | [] => True
  | v' :: w' => step v v' /\ along step v' w'
  end.

(** A node other than node 0. *)
Definition inner (n : nat) (k : nat) : Prop := k ≠ 0%nat /\ (k < n)%nat.

(** The selected arcs of [a] contain a directed cycle that avoids node 0:
    a walk of at least one arc from [v] back to [v] through nodes of
    [[1,n)]. *)
Definition cycle_avoiding_0 (n : nat) (a : assignment) (v : nat) (w : list nat)
  : Prop :=
  w ≠ [] /\ List.last w v = v /\ along (selected a) v w /\
  Forall (inner n) (v :: w).

(** The same, every arc joining two different nodes. *)
Definition proper_cycle_avoiding_0 (n : nat) (a : assignment) (v : nat)
    (w : list nat) : Prop :=
  w ≠ [] /\ List.last w v = v /\
  along (fun i j => i ≠ j /\ selected a i j) v w /\
  Forall (inner n) (v :: w).

(** Position of [v] in [l] (its length when [v] is absent). *)
Fixpoint index_of (v : nat) (l : list nat) : nat :=
  match l with
  | [] => 0
  | w :: l' => if decide (w = v) then 0%nat else S (index_of v l')
  end.

(** The position that follows [k] on a cycle of [n] positions. *)
Definition next_index (n k : nat) : nat :=
  if decide (S k = n) then 0%nat else S k.

(** The position before [k] on a cycle of [n] positions, and the node
    visited before [v]. *)
Definition prev_index (n k : nat) : nat :=
  if decide (k = 0%nat) then (n - 1)%nat else (k - 1)%nat.

Definition pred_of (tour : list nat) (v : nat) : nat :=
  nth (prev_index (length tour) (index_of v tour)) tour 0%nat.

(** The node visited after [v] on the cyclic sequence [tour]. *)
Definition succ_of (tour : list nat) (v : nat) : nat :=
  nth (next_index (length tour) (index_of v tour)) tour 0%nat.

(** The number of steps from node 0 to [v] along [tour]. *)
Definition rank_of (tour : list nat) (v : nat) : nat :=
  let p0 := index_of 0%nat tour in
  let pv := index_of v tour in
  if decide (p0 <= pv)%nat then (pv - p0)%nat
  else (pv + length tour - p0)%nat.

(** The assignment that selects exactly the arcs of [tour] and ranks the
    nodes by their distance from node 0. *)
Definition tour_assignment (tour : list nat) : assignment :=
  fun v =>
    match v with
    | x_ i j => if decide (succ_of tour i = j) then 1 else 0
    | u_ i => Z.of_nat (rank_of tour i)
    end.

(** [tour] visits each of the [n] nodes once. *)
Definition hamiltonian (n : nat) (tour : list nat) : Prop :=
  tour ≡ₚ range n.

Global Instance hamiltonian_dec (n : nat) (tour : list nat) :
  Decision (hamiltonian n tour).
Proof. unfold hamiltonian. apply _. Defined.

(** ** Matrices and objectives *)

(** [M] is an [n] by [n] array. *)
Definition shape (n : nat) (M : matrix) : Prop :=
  length M = n /\ Forall (fun row => length row = n) M.

(** [M[i][j]] of an entry that exists. *)
Definition entry (M : matrix) (i j : nat) : Q := default 0%Q (get M i j).

(** One term [M[i][j]*x[i,j]] for every ordered pair, the pairs [(i,i)]
    included, row by row. *)
Definition full_objective (n : nat) (M : matrix) : objective :=
  i ← range n; j ← range n; [(entry M i j, x_ i j)].

(** [sum(x[i,j]*M[i][j] for i != j)], the sum the specification speaks
    of. *)
Definition off_diagonal_objective (n : nat) (M : matrix) : objective :=
  i ← range n; j ← exclude (range n) i; [(entry M i j, x_ i j)].

(** The order [sorted] sorts by. *)
Definition key_le (a b : nat * nat) : Prop := key_leb a b = true.

(** ** The filled matrix *)

(** The coordinates of node [i] and the duration of the drive from node
    [i] to node [j], when they exist. *)
Definition place (location : list string) (i : nat) : string :=
  default ""%string (location !! i).

Definition seconds (directions : string -> string -> option Z)
    (location : list string) (i j : nat) : Z :=
  default 0 (directions (place location i) (place location j)).

(** [cost[i,j]] as the filling loop leaves it. *)
Definition hours (directions : string -> string -> option Z)
    (location : list string) (i j : nat) : Q :=
  (inject_Z (seconds directions location i j) / 3600)%Q.

(** Every ordered pair of places, in the order of the two loops. *)
Definition all_pairs (location : list string) : list call :=
  a ← location; b ← location; [(a, b)].

(** The writes of one row, and of the rows [ks]. *)
Definition write_row (directions : string -> string -> option Z)
    (location : list string) (i : nat) (js : list nat) (M : matrix) : matrix :=
  fold_left (fun M j => set M i j (hours directions location i j)) js M.

Definition write_rows (directions : string -> string -> option Z)
    (location : list string) (n : nat) (ks : list nat) (M : matrix) : matrix :=
  fold_left (fun M i => write_row directions location i (range n) M) ks M.

(** ** The check of the specification *)

(** The check the specification asks of an edge set over [n] nodes: [n]
    edges, every node once a source and once a target.  The notebook has
    no counterpart. *)
Definition degrees_ok (n : nat) (E : list (nat * nat)) : bool :=
  (length E =? n)%nat &&
  forallb (fun v =>
             (length (filter (fun e => e.1 = v) E) =? 1)%nat &&
             (length (filter (fun e => e.2 = v) E) =? 1)%nat)
          (range n).

(** ** Sample assignments, inputs and solvers *)

(** Every node keeps to itself: [x[i,i] = 1], all ranks 0. *)
Definition self_loops : assignment :=
  fun v =>
    match v with
    | x_ i j => if decide (i = j) then 1 else 0
    | u_ _ => 0
    end.

(** The solution printed by the notebook for its five locations:
    [x_0_3=1 x_1_4=1 x_2_1=1 x_3_2=1 x_4_0=1 u_1=2 u_2=1 u_4=3]. *)
Definition printed_solution : assignment :=
  fun v =>
    match v with
    | x_ 0 3 | x_ 1 4 | x_ 2 1 | x_ 3 2 | x_ 4 0 => 1
    | u_ 1 => 2
    | u_ 2 => 1
    | u_ 4 => 3
    | _ => 0
    end.

(** The first two places visit each other, the third one itself. *)
Definition pair_and_loop : assignment :=
  fun v =>
    match v with
    | x_ 0 1 | x_ 1 0 | x_ 2 2 => 1
    | _ => 0
    end.

(** Three places: the drive between the first two takes no time, every
    other drive 9e11 hours. *)
Definition three_places : list string := ["a"; "b"; "c"]%string.

Definition remote_directions (a b : string) : option Z :=
  if ((a =? "a") && (b =? "b") || (a =? "b") && (b =? "a"))%string
  then Some 0
  else Some (3600 * (9 * 10 ^ 11)).

(** What the filling loop leaves for the three places, and their
    notebook once the objective is set. *)
Definition remote_costs : matrix :=
  let far := (inject_Z (3600 * (9 * 10 ^ 11)) / 3600)%Q in
  let near := (inject_Z 0 / 3600)%Q in
  [[far; near; far]; [near; far; far]; [far; far; far]].

Definition remote_notebook : notebook :=
  cell_objective
    (cell_sentinel three_places
       (cell_constraints three_places
          (mkNotebook remote_costs empty_model None (mkDiGraph [])))).

(** A service that knows no route from a place to itself. *)
Definition no_self_route (a b : string) : option Z :=
  if (a =? b)%string then None else Some 60.

(** A solver that answers [x[0,0] = 1] and 0 for every other variable. *)
Definition loop_solver (m : Model) : option solution_values :=
  Some (fun v => match v with x_ 0 0 => 1%Q | _ => 0%Q end).

(** A solver that answers [x[0,1] = x[0,2] = 1] and 0 elsewhere. *)
Definition rogue_solver (m : Model) : option solution_values :=
  Some (fun v => match v with x_ 0 1 | x_ 0 2 => 1%Q | _ => 0%Q end).

(** ** Tactics *)

(** Case analysis on an index [i] bounded by the hypothesis [H]. *)
Ltac below i H :=
  repeat (destruct i as [|i]; [|try (exfalso; lia)]); try (exfalso; lia);
  clear H.

(** * Notions used by the further properties *)

(** ** Successors and walks *)

(** The node that the selected arc leaving [i] enters (node 0 when no
    arc leaving [i] is selected). *)
Definition successor (n : nat) (a : assignment) (i : nat) : nat :=
  default 0%nat (head (filter (fun j => selected a i j) (range n))).

(** The first [m] nodes met from node 0 along the selected arcs. *)
Definition walk_from_0 (n : nat) (a : assignment) (m : nat) : list nat :=
  (fun t => Nat.iter t (successor n a) 0%nat) <$> range m.

(** ** Costs of tours *)

(** [sum(f(i) for i in l)] over the rationals. *)
Definition sumQ (f : nat -> Q) (l : list nat) : Q :=
  foldr (fun i acc => f i + acc)%Q 0%Q l.

(** The travelling time of the cyclic sequence [tour]: the entries of
    [M] along its arcs. *)
Definition tour_cost (n : nat) (M : matrix) (tour : list nat) : Q :=
  sumQ (fun i => entry M i (succ_of tour i)) (range n).

(** Travel times are non-negative, and [n] times the largest is below
    the sentinel. *)
Definition cheap (n : nat) (M : matrix) : Prop :=
  (forall i j, (i < n)%nat -> (j < n)%nat -> i ≠ j -> (0 <= entry M i j)%Q) /\
  exists c,
    (forall i j, (i < n)%nat -> (j < n)%nat -> i ≠ j -> (entry M i j <= c)%Q) /\
    (inject_Z (Z.of_nat n) * c < sentinel)%Q.

(** The cheaper of two tours, and a cheapest one of a list of tours
    (the first of them when the list is empty). *)
Definition cheaper (n : nat) (M : matrix) (t1 t2 : list nat) : list nat :=
  if Qle_bool (tour_cost n M t1) (tour_cost n M t2) then t1 else t2.

Definition cheapest (n : nat) (M : matrix) (t0 : list nat)
    (tours : list (list nat)) : list nat :=
  foldr (cheaper n M) t0 tours.

(** A cheapest cyclic sequence through all [n] nodes, by trying them
    all. *)
Definition cheapest_tour (n : nat) (M : matrix) : list nat :=
  cheapest n M (range n) (permutations (range n)).

(** ** The lookups made before a failure *)

(** The pairs of places looked up, in the order of the two loops, up to
    and including the pair of nodes [(i,j)]. *)
Definition calls_until (location : list string) (i j : nat) : list call :=
  (i' ← range i; j' ← range (length location);
   [(place location i', place location j')]) ++
  ((fun j' => (place location i, place location j')) <$> range (S j)).

(** ** Integral solutions *)

(** The solution values a solver reports for the integer assignment
    [a]. *)
Definition integral (a : assignment) : solution_values :=
  fun v => inject_Z (a v).

(** The arcs [(i, successor i)] of the [n] nodes, in the order of the
    nodes. *)
Definition successor_arcs (n : nat) (a : assignment) : list (nat * nat) :=
  (fun i => (i, successor n a i)) <$> range n.

(** A solver that reports the values of the integer assignment [a],
    whatever the model. *)
Definition reporting (a : assignment) (m : Model) : option solution_values :=
  Some (integral a).

(** A service that knows every route but the one from the second to the
    third of the three places. *)
Definition blocked_route (a b : string) : option Z :=
  if ((a =? "b") && (b =? "c"))%string then None else Some 60.

(** A service that answers as [remote_directions] does, but knows that
    staying at a place takes no time. *)
Definition instant_self (a b : string) : option Z :=
  if (a =? b)%string then Some 0 else remote_directions a b.

(** ** The order of the nodes and edges of a digraph *)

(** [x] enters the list of what has been seen so far, as the last
    element, unless it is there. *)
Definition see {A : Type} `{EqDecision A} (xs : list A) (x : A) : list A :=
  if decide (x ∈ xs) then xs else xs ++ [x].

(** The distinct elements of [xs], in the order in which they first
    occur. *)
Definition seen {A : Type} `{EqDecision A} (xs : list A) : list A :=
  fold_left see xs [].

(** The end points of the edges [es], source before target, edge after
    edge. *)
Definition end_points (es : list (nat * nat)) : list nat :=
  e ← es; [e.1; e.2].

(** The edges [es] grouped by source: for every node of [ns] in turn,
    the edges that leave it, in the order they have in [es]. *)
Definition grouped (ns : list nat) (es : list (nat * nat))
  : list (nat * nat) :=
  u ← ns; filter (fun e => e.1 = u) es.

(** What the adjacency of a graph is once the edges [acc], all
    different, have been added: the end points of the edges are nodes,
    no node occurs twice, and the successors of a node are the targets
    of the edges of [acc] that leave it, in their order. *)
Definition built_from (acc : list (nat * nat)) (g : DiGraph) : Prop :=
  NoDup acc /\
  NoDup (nodes g) /\
  (forall e, e ∈ acc -> e.1 ∈ nodes g /\ e.2 ∈ nodes g) /\
  forall u nbrs, (u, nbrs) ∈ adj g ->
    nbrs = (filter (fun e => e.1 = u) acc).*2.

(** * Properties *)

(** ** Membership in the assembled model *)

(** The summary the notebook prints for its five locations: 25 binary
    and 5 integer variables, 27 constraints. *)
Example information_5 : information (build_model 5) = (25, 5, 27)%nat.
Proof. reflexivity. Qed.

Lemma elem_of_range (n k : nat) : k ∈ range n <-> (k < n)%nat.
Proof. unfold range. rewrite elem_of_seq. lia. Qed.

Lemma elem_of_x_keys (lbl : list nat) (k : nat * nat) :
  k ∈ x_keys lbl <-> k.1 ∈ lbl /\ k.2 ∈ lbl.
Proof.
  unfold x_keys. rewrite list_elem_of_bind. split.
  - intros (i & Hk & Hi). apply list_elem_of_bind in Hk as (j & Hk & Hj).
    apply list_elem_of_ret in Hk. subst k. auto.
  - intros [Hi Hj]. exists k.1. split; [|done].
    apply list_elem_of_bind. exists k.2. split; [|done].
    apply list_elem_of_ret. by destruct k.
Qed.

Lemma elem_of_u_keys (lbl : list nat) (i : nat) : i ∈ u_keys lbl <-> i ∈ lbl.
Proof.
  unfold u_keys. rewrite list_elem_of_bind. split.
  - intros (j & Hi & Hj). apply list_elem_of_ret in Hi. by subst.
  - intros Hi. exists i. split; [by apply list_elem_of_ret|done].
Qed.

Lemma elem_of_c_1_4 (lbl : list nat) (c : constraint) :
  c ∈ c_1_4 lbl <-> exists i, i ∈ lbl /\ c = out_degree lbl i.
Proof.
  unfold c_1_4. rewrite list_elem_of_bind.
  split; intros (i & H1 & H2); exists i.
  - apply list_elem_of_ret in H1. auto.
  - split; [by apply list_elem_of_ret|done].
Qed.

Lemma elem_of_c_1_5 (lbl : list nat) (c : constraint) :
  c ∈ c_1_5 lbl <-> exists j, j ∈ lbl /\ c = in_degree lbl j.
Proof.
  unfold c_1_5. rewrite list_elem_of_bind.
  split; intros (i & H1 & H2); exists i.
  - apply list_elem_of_ret in H1. auto.
  - split; [by apply list_elem_of_ret|done].
Qed.

Lemma elem_of_c_1_13 (n : Z) (lbl : list nat) (c : constraint) :
  c ∈ c_1_13 n lbl <->
  exists i j,
    i ∈ lbl /\ j ∈ lbl /\ i ≠ 0%nat /\ j ≠ 0%nat /\ i ≠ j /\ c = mtz n i j.
Proof.
  unfold c_1_13, exclude. rewrite list_elem_of_bind. split.
  - intros (i & Hc & Hi). apply list_elem_of_bind in Hc as (j & Hc & Hj).
    apply list_elem_of_ret in Hc.
    apply list_elem_of_filter in Hi as [Hi0 Hi].
    apply list_elem_of_filter in Hj as [Hji Hj].
    apply list_elem_of_filter in Hj as [Hj0 Hj].
    exists i, j. repeat split; auto.
  - intros (i & j & Hi & Hj & Hi0 & Hj0 & Hij & ->).
    exists i. split; [|by apply list_elem_of_filter].
    apply list_elem_of_bind. exists j. split; [by apply list_elem_of_ret|].
    apply list_elem_of_filter. split; [auto|by apply list_elem_of_filter].
Qed.

Lemma elem_of_c_1_14 (n : Z) (lbl : list nat) (c : constraint) :
  c ∈ c_1_14 n lbl <-> exists i, i ∈ lbl /\ c = rank_bound n i.
Proof.
  unfold c_1_14. rewrite list_elem_of_bind.
  split; intros (i & H1 & H2); exists i.
  - apply list_elem_of_ret in H1. auto.
  - split; [by apply list_elem_of_ret|done].
Qed.

Lemma elem_of_constraints (n : nat) (c : constraint) :
  c ∈ constraints (build_model n) <->
  c ∈ c_1_4 (range n) \/ c ∈ c_1_5 (range n) \/
  c ∈ c_1_13 (Z.of_nat n) (range n) \/ c ∈ c_1_14 (Z.of_nat n) (range n).
Proof. simpl. by rewrite !elem_of_app. Qed.

(** ** What the constraints say *)

Lemma eval_out_degree (a : assignment) (lbl : list nat) (i : nat) :
  eval a (lhs (out_degree lbl i)) = sumZ (fun j => a (x_ i j)) lbl.
Proof.
  simpl. induction lbl as [|j l IH]; [done|].
  cbn [mbind list_bind mret list_ret app eval foldr sumZ fst snd].
  unfold eval, sumZ in IH. rewrite IH. lia.
Qed.

Lemma eval_in_degree (a : assignment) (lbl : list nat) (j : nat) :
  eval a (lhs (in_degree lbl j)) = sumZ (fun i => a (x_ i j)) lbl.
Proof.
  simpl. induction lbl as [|i l IH]; [done|].
  cbn [mbind list_bind mret list_ret app eval foldr sumZ fst snd].
  unfold eval, sumZ in IH. rewrite IH. lia.
Qed.

Lemma satisfies_mtz (a : assignment) (n : Z) (i j : nat) :
  satisfies a (mtz n i j) <-> a (u_ i) - a (u_ j) + n * a (x_ i j) <= n - 1.
Proof. unfold satisfies, mtz, eval; simpl. lia. Qed.

Lemma satisfies_rank_bound (a : assignment) (n : Z) (i : nat) :
  satisfies a (rank_bound n i) <-> a (u_ i) <= n - 1.
Proof. unfold satisfies, rank_bound, eval; simpl. lia. Qed.

Lemma feasible_build_model (n : nat) (a : assignment) :
  feasible (build_model n) a <-> tsp_feasible n a.
Proof.
  split.
  - intros (Hb & Hl & Hc). split.
    + intros i j Hi Hj. apply (Hb (i, j)). simpl.
      apply elem_of_x_keys; simpl. by rewrite !elem_of_range.
    + intros i Hi. apply Hl. simpl. by apply elem_of_u_keys, elem_of_range.
    + intros i Hi. rewrite <- eval_out_degree.
      apply (Hc (out_degree (range n) i)), elem_of_constraints. left.
      apply elem_of_c_1_4. exists i. by rewrite elem_of_range.
    + intros j Hj. rewrite <- eval_in_degree.
      apply (Hc (in_degree (range n) j)), elem_of_constraints. right; left.
      apply elem_of_c_1_5. exists j. by rewrite elem_of_range.
    + intros i j Hi Hj Hi0 Hj0 Hij. apply satisfies_mtz, Hc, elem_of_constraints.
      right; right; left. apply elem_of_c_1_13. exists i, j.
      by rewrite !elem_of_range.
    + intros i Hi. apply satisfies_rank_bound, Hc, elem_of_constraints.
      right; right; right. apply elem_of_c_1_14. exists i.
      by rewrite elem_of_range.
  - intros [Hb Hl Ho Hi Hm Hu]. split; [|split].
    + intros [i j] Hk. simpl in Hk. apply elem_of_x_keys in Hk as [H1 H2].
      simpl in *. apply Hb; by apply elem_of_range.
    + intros i Hk. simpl in Hk. apply elem_of_u_keys, elem_of_range in Hk. auto.
    + intros c Hc. apply elem_of_constraints in Hc as [Hc|[Hc|[Hc|Hc]]].
      * apply elem_of_c_1_4 in Hc as (i & Hr & ->). apply elem_of_range in Hr.
        unfold satisfies. cbn [rel out_degree rhs]. 
        rewrite <- (Ho i Hr). apply eval_out_degree.
      * apply elem_of_c_1_5 in Hc as (j & Hr & ->). apply elem_of_range in Hr.
        unfold satisfies. cbn [rel in_degree rhs].
        rewrite <- (Hi j Hr). apply eval_in_degree.
      * apply elem_of_c_1_13 in Hc as (i & j & Hri & Hrj & ? & ? & ? & ->).
        apply elem_of_range in Hri, Hrj. apply satisfies_mtz. auto.
      * apply elem_of_c_1_14 in Hc as (i & Hr & ->). apply elem_of_range in Hr.
        apply satisfies_rank_bound. auto.
Qed.

(** ** Walks and tours *)

(** The tour of the notebook's printed solution. *)
Example tour_assignment_5 :
  let a := tour_assignment [0; 3; 2; 1; 4]%nat in
  (a (x_ 0 3), a (x_ 3 2), a (x_ 2 1), a (x_ 1 4), a (x_ 4 0)) = (1, 1, 1, 1, 1)
  /\ (a (u_ 0), a (u_ 3), a (u_ 2), a (u_ 1), a (u_ 4)) = (0, 1, 2, 3, 4).
Proof. split; reflexivity. Qed.

Lemma last_cons_cons (v v' : nat) (w : list nat) :
  List.last (v' :: w) v = List.last w v'.
Proof.
  revert v v'. induction w as [|x w IH]; intros v v'; [done|].
  change (List.last (v' :: x :: w) v) with (List.last (x :: w) v).
  rewrite (IH v x). symmetry. apply (IH v' x).
Qed.

(** Along a walk of proper selected arcs among the inner nodes every step
    raises the rank by at least one. *)
Lemma rank_along (n : nat) (a : assignment) :
  tsp_feasible n a ->
  forall (w : list nat) (v : nat),
    along (fun i j => i ≠ j /\ selected a i j) v w ->
    Forall (inner n) (v :: w) ->
    a (u_ v) + Z.of_nat (length w) <= a (u_ (List.last w v)).
Proof.
  intros Hf w. induction w as [|v' w IH]; intros v Hw Hin.
  - simpl. lia.
  - destruct Hw as [[Hne Hsel] Hw].
    apply Forall_cons in Hin as [[Hv0 Hv] Hin].
    pose proof Hin as Hin'. apply Forall_cons in Hin' as [[Hv'0 Hv'] _].
    specialize (IH v' Hw Hin). rewrite last_cons_cons.
    pose proof (tf_mtz n a Hf v v' Hv Hv' Hv0 Hv'0 Hne) as Hm.
    unfold selected in Hsel. rewrite Hsel in Hm.
    rewrite length_cons. lia.
Qed.

Lemma no_proper_cycle (n : nat) (a : assignment) (v : nat) (w : list nat) :
  tsp_feasible n a -> ~ proper_cycle_avoiding_0 n a v w.
Proof.
  intros Hf (Hne & Hlast & Hw & Hin).
  pose proof (rank_along n a Hf w v Hw Hin) as H. rewrite Hlast in H.
  destruct w; [done|]. rewrite length_cons in H. lia.
Qed.

(** ** Every Hamiltonian cycle is feasible *)

Lemma index_of_lookup (v : nat) (l : list nat) :
  v ∈ l -> l !! index_of v l = Some v.
Proof.
  induction l as [|w l IH]; intros Hv; [by apply elem_of_nil in Hv|].
  simpl. destruct (decide (w = v)) as [->|Hne]; [done|].
  apply elem_of_cons in Hv as [->|Hv]; [done|]. simpl. auto.
Qed.

Lemma index_of_lt (v : nat) (l : list nat) :
  v ∈ l -> (index_of v l < length l)%nat.
Proof. intros Hv. eapply lookup_lt_Some, index_of_lookup, Hv. Qed.

Lemma index_of_unique (v : nat) (l : list nat) (k : nat) :
  NoDup l -> l !! k = Some v -> index_of v l = k.
Proof.
  intros Hnd Hk. eapply NoDup_lookup; [done| |done].
  apply index_of_lookup. eapply list_elem_of_lookup_2, Hk.
Qed.

Lemma index_of_inj (l : list nat) (v w : nat) :
  v ∈ l -> w ∈ l -> index_of v l = index_of w l -> v = w.
Proof.
  intros Hv Hw Heq. apply index_of_lookup in Hv, Hw.
  rewrite Heq in Hv. congruence.
Qed.

Lemma sumZ_indicator (k s m : nat) :
  sumZ (fun j => if decide (k = j) then 1 else 0) (seq s m) =
  if decide (s <= k < s + m)%nat then 1 else 0.
Proof.
  revert s. induction m as [|m IH]; intros s; simpl.
  - destruct (decide _); [lia|done].
  - rewrite IH. repeat destruct (decide _); lia.
Qed.

Lemma sumZ_ext (f g : nat -> Z) (l : list nat) :
  (forall j, j ∈ l -> f j = g j) -> sumZ f l = sumZ g l.
Proof.
  induction l as [|j l IH]; intros H; [done|]. simpl.
  rewrite (H j) by apply list_elem_of_here.
  rewrite IH; [done|]. intros k Hk. apply H. by apply list_elem_of_further.
Qed.

Section Tour.

Variables (n : nat) (tour : list nat).
Hypothesis Htour : hamiltonian n tour.

Lemma tour_length : length tour = n.
Proof.
  unfold hamiltonian in Htour. rewrite Htour. unfold range. apply length_seq.
Qed.

Lemma tour_NoDup : NoDup tour.
Proof. unfold hamiltonian in Htour. rewrite Htour. apply NoDup_seq. Qed.

Lemma tour_elem (v : nat) : v ∈ tour <-> (v < n)%nat.
Proof. unfold hamiltonian in Htour. rewrite Htour. apply elem_of_range. Qed.

Lemma tour_index_lt (v : nat) : (v < n)%nat -> (index_of v tour < n)%nat.
Proof.
  intros Hv. rewrite <- tour_length. by apply index_of_lt, tour_elem.
Qed.

Lemma tour_nth (k : nat) :
  (k < n)%nat ->
  nth k tour 0%nat ∈ tour /\ index_of (nth k tour 0%nat) tour = k.
Proof.
  intros Hk. rewrite <- tour_length in Hk.
  destruct (lookup_lt_is_Some_2 tour k Hk) as [v Hv].
  rewrite (nth_lookup_Some _ _ _ _ Hv). split.
  - eapply list_elem_of_lookup_2, Hv.
  - apply index_of_unique; [apply tour_NoDup|done].
Qed.

Lemma next_index_lt (k : nat) : (k < n)%nat -> (next_index n k < n)%nat.
Proof. unfold next_index. destruct (decide _); lia. Qed.

Lemma succ_of_lt (v : nat) : (v < n)%nat -> (succ_of tour v < n)%nat.
Proof.
  intros Hv. apply tour_elem. unfold succ_of. rewrite tour_length.
  by apply tour_nth, next_index_lt, tour_index_lt.
Qed.

Lemma index_succ_of (v : nat) :
  (v < n)%nat ->
  index_of (succ_of tour v) tour = next_index n (index_of v tour).
Proof.
  intros Hv. unfold succ_of. rewrite tour_length.
  by apply tour_nth, next_index_lt, tour_index_lt.
Qed.

Lemma prev_index_lt (k : nat) : (k < n)%nat -> (prev_index n k < n)%nat.
Proof. unfold prev_index. destruct (decide _); lia. Qed.

Lemma succ_of_pred_of (i j : nat) :
  (i < n)%nat -> (j < n)%nat -> succ_of tour i = j <-> i = pred_of tour j.
Proof.
  intros Hi Hj.
  pose proof (tour_index_lt i Hi) as Hpi.
  pose proof (tour_index_lt j Hj) as Hpj.
  split.
  - intros Hs. apply (index_of_inj tour); [by apply tour_elem| |].
    + unfold pred_of. rewrite tour_length. by apply tour_nth, prev_index_lt.
    + unfold pred_of. rewrite tour_length.
      rewrite (proj2 (tour_nth _ (prev_index_lt _ Hpj))).
      rewrite <- Hs, index_succ_of by done.
      unfold prev_index, next_index. repeat destruct (decide _); lia.
  - intros Hp. apply (index_of_inj tour).
    + by apply tour_elem, succ_of_lt.
    + by apply tour_elem.
    + rewrite index_succ_of by done. rewrite Hp.
      unfold pred_of. rewrite tour_length.
      rewrite (proj2 (tour_nth _ (prev_index_lt _ Hpj))).
      unfold prev_index, next_index. repeat destruct (decide _); lia.
Qed.

Lemma rank_of_lt (v : nat) : (v < n)%nat -> (rank_of tour v < n)%nat.
Proof.
  intros Hv. unfold rank_of. rewrite tour_length.
  pose proof (tour_index_lt v Hv).
  destruct (decide (n = 0%nat)); [lia|].
  pose proof (tour_index_lt 0%nat ltac:(lia)).
  destruct (decide _); lia.
Qed.

Lemma rank_of_succ (i : nat) :
  (i < n)%nat -> succ_of tour i ≠ 0%nat ->
  rank_of tour (succ_of tour i) = S (rank_of tour i).
Proof.
  intros Hi Hs.
  assert (index_of (succ_of tour i) tour ≠ index_of 0%nat tour) as Hne.
  { intros Heq. apply Hs. apply (index_of_inj tour); [| |done].
    - by apply tour_elem, succ_of_lt.
    - apply tour_elem. lia. }
  rewrite index_succ_of in Hne by done.
  unfold rank_of. rewrite index_succ_of, tour_length by done.
  pose proof (tour_index_lt i Hi).
  pose proof (tour_index_lt 0%nat ltac:(lia)).
  unfold next_index in *. repeat destruct (decide _); lia.
Qed.

Lemma tour_feasible : tsp_feasible n (tour_assignment tour).
Proof.
  split.
  - intros i j _ _. simpl. destruct (decide _); auto.
  - intros i _. simpl. lia.
  - intros i Hi. simpl. unfold range. rewrite sumZ_indicator.
    pose proof (succ_of_lt i Hi). destruct (decide _); lia.
  - intros j Hj. simpl.
    rewrite (sumZ_ext _ (fun i => if decide (pred_of tour j = i) then 1 else 0)).
    + unfold range. rewrite sumZ_indicator.
      assert (pred_of tour j < n)%nat.
      { apply tour_elem. unfold pred_of. rewrite tour_length.
        by apply tour_nth, prev_index_lt, tour_index_lt. }
      destruct (decide _); lia.
    + intros i Hr. apply elem_of_range in Hr.
      pose proof (succ_of_pred_of i j Hr Hj).
      destruct (decide (succ_of tour i = j)) as [Hs|Hs],
        (decide (pred_of tour j = i)) as [Hp|Hp]; try done; exfalso.
      * apply Hp. symmetry. by apply H.
      * apply Hs, H. by symmetry.
  - intros i j Hi Hj Hi0 Hj0 Hij. simpl.
    pose proof (rank_of_lt i Hi). pose proof (rank_of_lt j Hj).
    destruct (decide (succ_of tour i = j)) as [Hs|Hs]; [|lia].
    subst j. rewrite rank_of_succ by done. lia.
  - intros i Hi. simpl. pose proof (rank_of_lt i Hi). lia.
Qed.

End Tour.

Lemma self_loops_feasible_2 : feasible (build_model 2) self_loops.
Proof.
  apply feasible_build_model. split.
  - intros i j _ _. simpl. destruct (decide _); auto.
  - intros i _. simpl. lia.
  - intros i Hi. below i Hi; reflexivity.
  - intros j Hj. below j Hj; reflexivity.
  - intros i j Hi Hj Hi0 Hj0 Hij. lia.
  - intros i _. simpl. lia.
Qed.

(** C1, as stated, fails: with two nodes the assignment [x[0,0] = x[1,1]
    = 1] is feasible for the assembled model, and its selected arc
    [(1,1)] is a directed cycle that avoids node 0. *)
Lemma self_loop_is_feasible_cycle :
  feasible (build_model 2) self_loops /\
  cycle_avoiding_0 2 self_loops 1 [1%nat].
Proof.
  split; [apply self_loops_feasible_2|].
  repeat split; try done.
  repeat constructor; lia.
Qed.

(** C1, amended: for every ordered pair [i ≠ j] of nodes of [[1,n)] the
    assembled model contains [u[i] - u[j] + n*x[i,j] <= n-1]; no feasible
    assignment selects all the arcs of a directed cycle that avoids node
    0 and whose arcs each join two different nodes; and every Hamiltonian
    cycle through the [n] nodes is the set of selected arcs of a feasible
    assignment, ranks included. *)
Theorem mtz_subtour_elimination (n : nat) :
  (forall i j, inner n i -> inner n j -> i ≠ j ->
     mtz (Z.of_nat n) i j ∈ constraints (build_model n)) /\
  (forall a v w, feasible (build_model n) a ->
     ~ proper_cycle_avoiding_0 n a v w) /\
  (forall tour, hamiltonian n tour ->
     feasible (build_model n) (tour_assignment tour) /\
     forall i j, selected (tour_assignment tour) i j <-> succ_of tour i = j).
Proof.
  split; [|split].
  - intros i j [Hi0 Hi] [Hj0 Hj] Hij. apply elem_of_constraints.
    right; right; left. apply elem_of_c_1_13. exists i, j.
    by rewrite !elem_of_range.
  - intros a v w Hf. by apply no_proper_cycle, feasible_build_model.
  - intros tour Ht. split.
    + by apply feasible_build_model, tour_feasible.
    + intros i j. unfold selected. simpl. destruct (decide _); split; done.
Qed.

Lemma mtz_subtour_elimination_witness :
  mtz 5 1 2 ∈ constraints (build_model 5) /\
  ~ proper_cycle_avoiding_0 5 (tour_assignment [0; 3; 2; 1; 4]%nat) 1
      [2; 1]%nat /\
  feasible (build_model 5) (tour_assignment [0; 3; 2; 1; 4]%nat).
Proof.
  destruct (mtz_subtour_elimination 5) as (Hc & Hn & Ht).
  assert (hamiltonian 5 [0; 3; 2; 1; 4]%nat) as Hh
    by (apply (bool_decide_unpack _); vm_compute; exact I).
  split; [|split].
  - apply (Hc 1 2)%nat; unfold inner; lia.
  - apply Hn, Ht, Hh.
  - apply Ht, Hh.
Defined.

(** ** Degrees of the selected arcs *)

Lemma count_ones (f : nat -> Z) (l : list nat) :
  (forall j, j ∈ l -> f j = 0 \/ f j = 1) ->
  Z.of_nat (length (filter (fun j => f j = 1) l)) = sumZ f l.
Proof.
  induction l as [|j l IH]; intros Hb; [done|].
  rewrite filter_cons. simpl.
  assert (forall k, k ∈ l -> f k = 0 \/ f k = 1) as Hl
    by (intros k Hk; apply Hb; by apply list_elem_of_further).
  specialize (IH Hl).
  destruct (Hb j (list_elem_of_here _ _)) as [H0|H1].
  - destruct (decide (f j = 1)) as [?|_]; [lia|]. rewrite IH. lia.
  - destruct (decide (f j = 1)) as [_|?]; [|lia]. rewrite length_cons. lia.
Qed.

Lemma feasible_degrees (n : nat) (a : assignment) :
  tsp_feasible n a ->
  forall i, (i < n)%nat -> arcs_out n a i = 1%nat /\ arcs_in n a i = 1%nat.
Proof.
  intros Hf i Hi. unfold arcs_out, arcs_in, selected. split.
  - apply Nat2Z.inj. rewrite (count_ones (fun j => a (x_ i j))).
    + by apply (tf_out n a Hf).
    + intros j Hj. apply elem_of_range in Hj. by apply (tf_binary n a Hf).
  - apply Nat2Z.inj. rewrite (count_ones (fun k => a (x_ k i))).
    + by apply (tf_in n a Hf).
    + intros j Hj. apply elem_of_range in Hj. by apply (tf_binary n a Hf).
Qed.

Lemma printed_solution_feasible : feasible (build_model 5) printed_solution.
Proof.
  apply feasible_build_model. split.
  - intros i j Hi Hj. below i Hi; below j Hj; simpl; auto.
  - intros i Hi. below i Hi; simpl; lia.
  - intros i Hi. below i Hi; reflexivity.
  - intros j Hj. below j Hj; reflexivity.
  - intros i j Hi Hj Hi0 Hj0 Hij. below i Hi; below j Hj; simpl; lia.
  - intros i Hi. below i Hi; simpl; lia.
Qed.

(** C2, as stated, fails: the out-degree constraint does not force the
    sum over [j ≠ i] to 1.  With two nodes the feasible assignment
    [x[0,0] = x[1,1] = 1] has [sum(x[0,j] for j != 0) = 0]. *)
Lemma sum_over_others_not_forced :
  feasible (build_model 2) self_loops /\
  sum_others self_loops (range 2) 0 = 0.
Proof. split; [apply self_loops_feasible_2|reflexivity]. Qed.

(** C2, amended: for every node [i] the assembled model contains the
    out-degree constraint [sum(x[i,j] for j in lbl) == 1] and for every
    node [j] the in-degree constraint [sum(x[i,j] for i in lbl) == 1],
    both sums running over all nodes, the node itself included; so in
    every feasible assignment, and hence in every optimal solution for
    any objective, exactly one selected arc (possibly the self-arc)
    leaves every node and exactly one enters it. *)
Theorem degree_constraints (n : nat) :
  (forall i, (i < n)%nat ->
     out_degree (range n) i ∈ constraints (build_model n) /\
     in_degree (range n) i ∈ constraints (build_model n) /\
     forall a,
       (satisfies a (out_degree (range n) i) <->
        sumZ (fun j => a (x_ i j)) (range n) = 1) /\
       (satisfies a (in_degree (range n) i) <->
        sumZ (fun k => a (x_ k i)) (range n) = 1)) /\
  (forall a, feasible (build_model n) a ->
     forall i, (i < n)%nat -> arcs_out n a i = 1%nat /\ arcs_in n a i = 1%nat) /\
  (forall o a, optimal (build_model n) o a ->
     forall i, (i < n)%nat -> arcs_out n a i = 1%nat /\ arcs_in n a i = 1%nat).
Proof.
  split; [|split].
  - intros i Hi. split; [|split].
    + apply elem_of_constraints. left. apply elem_of_c_1_4. exists i.
      by rewrite elem_of_range.
    + apply elem_of_constraints. right; left. apply elem_of_c_1_5. exists i.
      by rewrite elem_of_range.
    + intros a. unfold satisfies. cbn [rel out_degree in_degree rhs].
      by rewrite eval_out_degree, eval_in_degree.
  - intros a Hf. by apply feasible_degrees, feasible_build_model.
  - intros o a [Hf _]. by apply feasible_degrees, feasible_build_model.
Qed.

Lemma degree_constraints_witness :
  out_degree (range 5) 3 ∈ constraints (build_model 5) /\
  arcs_out 5 printed_solution 3 = 1%nat /\
  arcs_in 5 printed_solution 3 = 1%nat.
Proof.
  destruct (degree_constraints 5) as (Hc & Hf & _).
  split.
  - apply (Hc 3%nat). lia.
  - apply (Hf printed_solution printed_solution_feasible 3%nat). lia.
Defined.

(** C3, as stated, fails: node 0 has a rank variable, and the solution
    the notebook prints, feasible for its model of five nodes, gives node
    3 the rank 0. *)
Lemma rank_of_node_0_declared_and_rank_0_used :
  0%nat ∈ integer_vars (build_model 5) /\
  feasible (build_model 5) printed_solution /\
  printed_solution (u_ 3) = 0.
Proof.
  split; [|split; [apply printed_solution_feasible|reflexivity]].
  apply elem_of_u_keys, elem_of_range. lia.
Qed.

(** C3, amended: an integer rank variable [u[i]] is declared for every
    node [i] of [[0,n)], node 0 included; each is declared with lower
    bound 0 and the model contains [u[i] <= n-1] for each, so every
    feasible assignment has [0 <= u[i] <= n-1]. *)
Theorem rank_variables (n : nat) :
  (forall i, i ∈ integer_vars (build_model n) <-> (i < n)%nat) /\
  (forall i, (i < n)%nat ->
     rank_bound (Z.of_nat n) i ∈ constraints (build_model n)) /\
  (forall a, feasible (build_model n) a ->
     forall i, (i < n)%nat -> 0 <= a (u_ i) <= Z.of_nat n - 1).
Proof.
  split; [|split].
  - intros i. simpl. by rewrite elem_of_u_keys, elem_of_range.
  - intros i Hi. apply elem_of_constraints. right; right; right.
    apply elem_of_c_1_14. exists i. by rewrite elem_of_range.
  - intros a Hf i Hi. apply feasible_build_model in Hf.
    split; [by apply (tf_lb n a Hf)|by apply (tf_ub n a Hf)].
Qed.

Lemma rank_variables_witness :
  rank_bound 5 0 ∈ constraints (build_model 5) /\
  0 <= printed_solution (u_ 0) <= 4.
Proof.
  destruct (rank_variables 5) as (_ & Hc & Hf).
  split.
  - apply (Hc 0%nat). lia.
  - apply (Hf printed_solution printed_solution_feasible 0%nat). lia.
Defined.

(** ** The objective, term by term *)

Lemma bind_ret_fmap {A B} (f : A -> B) (l : list A) :
  (a ← l; [f a]) = f <$> l.
Proof. induction l as [|a l IH]; [done|]. rewrite bind_cons, IH. done. Qed.

Lemma bind_fmap_concat {A B} (f : A -> list B) (l : list A) :
  l ≫= f = concat (f <$> l).
Proof. induction l as [|a l IH]; [done|]. rewrite bind_cons, IH. done. Qed.

Lemma sorted_id (l : list (nat * nat)) :
  StronglySorted key_le l -> sorted l = l.
Proof.
  induction 1 as [|a l Hl IH Ha]; [done|].
  unfold sorted in *. simpl. rewrite IH.
  destruct l as [|b l']; [done|]. simpl.
  apply Forall_cons in Ha as [Hab _]. unfold key_le in Hab. by rewrite Hab.
Qed.

Lemma row_keys_sorted (i s m : nat) :
  StronglySorted key_le ((fun j => (i, j)) <$> seq s m).
Proof.
  revert s. induction m as [|m IH]; intros s; simpl; constructor; [apply IH|].
  apply Forall_forall. intros b Hb.
  apply list_elem_of_fmap in Hb as (j & -> & Hj). apply elem_of_seq in Hj.
  unfold key_le, key_leb. simpl.
  rewrite Nat.eqb_refl, Bool.andb_true_l, Bool.orb_true_iff. right.
  apply Nat.leb_le. lia.
Qed.

Lemma x_keys_rows (lbl rows : list nat) :
  (i ← rows; j ← lbl; [(i, j)]) =
  concat ((fun i => (fun j => (i, j)) <$> lbl) <$> rows).
Proof.
  rewrite bind_fmap_concat. apply (f_equal (@concat _)), list_fmap_ext.
  intros _ i _. apply bind_ret_fmap.
Qed.

Lemma keys_from_sorted (lbl : list nat) (s m : nat) :
  (forall i, StronglySorted key_le ((fun j => (i, j)) <$> lbl)) ->
  StronglySorted key_le
    (concat ((fun i => (fun j => (i, j)) <$> lbl) <$> seq s m)).
Proof.
  intros Hrow. revert s. induction m as [|m IH]; intros s; simpl; [constructor|].
  apply StronglySorted_app_2; [|apply Hrow|apply IH].
  intros a b Ha Hb. apply list_elem_of_fmap in Ha as (j & -> & _).
  apply list_elem_of_In, in_concat in Hb as (blk & Hblk & Hb).
  apply list_elem_of_In, list_elem_of_fmap in Hblk as (i & -> & Hi).
  apply list_elem_of_In, list_elem_of_fmap in Hb as (j' & -> & _).
  apply elem_of_seq in Hi. unfold key_le, key_leb. simpl.
  apply Bool.orb_true_iff. left. apply Nat.ltb_lt. lia.
Qed.

Lemma sorted_x_keys (n : nat) : sorted (x_keys (range n)) = x_keys (range n).
Proof.
  apply sorted_id. unfold x_keys. rewrite x_keys_rows.
  apply keys_from_sorted. intros i. apply row_keys_sorted.
Qed.

Lemma zip_concat {A B} (rows : list (list A)) (blocks : list (list B)) :
  Forall2 (fun r b => length r = length b) rows blocks ->
  zip (concat rows) (concat blocks) = concat (zip_with zip rows blocks).
Proof.
  induction 1 as [|r b rows blocks Hlen _ IH]; [done|].
  simpl. rewrite zip_with_app by done. by rewrite IH.
Qed.

Lemma zip_row (M : matrix) (n i : nat) (row : list Q) :
  M !! i = Some row -> length row = n ->
  zip row (x_ i <$> range n) = (fun j => (entry M i j, x_ i j)) <$> range n.
Proof.
  intros Hrow Hlen. apply list_eq. intros j.
  rewrite lookup_zip_with, !list_lookup_fmap. unfold range.
  destruct (decide (j < n)%nat) as [Hj|Hj].
  - rewrite lookup_seq_lt by done. simpl.
    rewrite <- Hlen in Hj. destruct (lookup_lt_is_Some_2 row j Hj) as [q Hq].
    rewrite Hq. simpl. unfold entry, get. rewrite Hrow. simpl. by rewrite Hq.
  - rewrite lookup_seq_ge by lia. simpl. destruct (row !! j); reflexivity.
Qed.

Lemma zip_rows (M : matrix) (n : nat) :
  shape n M ->
  zip_with zip M ((fun i => x_ i <$> range n) <$> range n) =
  (fun i => (fun j => (entry M i j, x_ i j)) <$> range n) <$> range n.
Proof.
  intros [Hlen Hrows]. apply list_eq. intros i.
  rewrite lookup_zip_with, !list_lookup_fmap. unfold range at 2 4.
  destruct (decide (i < n)%nat) as [Hi|Hi].
  - rewrite lookup_seq_lt by done. simpl.
    rewrite <- Hlen in Hi. destruct (lookup_lt_is_Some_2 M i Hi) as [row Hrow].
    rewrite Hrow. simpl. f_equal. apply (zip_row M n i row Hrow).
    apply (Forall_lookup_1 _ _ _ _ Hrows Hrow).
  - rewrite lookup_seq_ge by lia. rewrite (lookup_ge_None_2 M i) by lia.
    reflexivity.
Qed.

(** The objective of the notebook has one term for every ordered pair,
    the self-arcs included. *)
Lemma loss_full (n : nat) (M : matrix) :
  shape n M -> loss (build_model n) M = full_objective n M.
Proof.
  intros HM. unfold loss, dot, flatten, full_objective.
  cbn [binary_vars build_model]. rewrite sorted_x_keys.
  unfold x_keys. rewrite x_keys_rows.
  rewrite (bind_fmap_concat _ (range n)).
  replace ((fun i => j ← range n; [(entry M i j, x_ i j)]) <$> range n)
    with ((fun i => (fun j => (entry M i j, x_ i j)) <$> range n) <$> range n).
  2:{ apply list_fmap_ext. intros _ i _. symmetry. apply bind_ret_fmap. }
  rewrite <- zip_rows by done.
  replace (map (fun k : nat * nat => x_ k.1 k.2)
             (concat ((fun i => (fun j => (i, j)) <$> range n) <$> range n)))
    with (concat ((fun i => x_ i <$> range n) <$> range n)).
  - apply zip_concat. destruct HM as [Hlen Hrows].
    apply Forall2_same_length_lookup. split.
    + rewrite length_fmap. unfold range. by rewrite length_seq.
    + intros i row blk Hrow Hblk.
      rewrite list_lookup_fmap in Hblk. unfold range in Hblk at 2.
      destruct (seq 0 n !! i) as [i'|]; [|done]. simpl in Hblk. simplify_eq.
      rewrite length_fmap. unfold range. rewrite length_seq.
      apply (Forall_lookup_1 _ _ _ _ Hrows Hrow).
  - rewrite concat_map, map_map. f_equal. apply map_ext. intros i.
    change (map (fun k : nat * nat => x_ k.1 k.2)
              ((fun j => (i, j)) <$> range n))
      with ((fun k : nat * nat => x_ k.1 k.2) <$>
              ((fun j => (i, j)) <$> range n)).
    by rewrite <- list_fmap_compose.
Qed.

(** ** Reading and writing entries *)

Lemma shape_zeros (n : nat) : shape n (zeros n).
Proof.
  split; [apply length_replicate|].
  apply Forall_forall. intros row Hrow.
  apply elem_of_replicate in Hrow as [-> _]. apply length_replicate.
Qed.

Lemma shape_set (n : nat) (M : matrix) (i j : nat) (v : Q) :
  shape n M -> shape n (set M i j v).
Proof.
  intros [Hlen Hrows]. unfold set. split; [by rewrite length_alter|].
  apply Forall_lookup. intros k row Hk.
  destruct (decide (i = k)) as [->|Hne].
  - rewrite list_lookup_alter_eq in Hk.
    destruct (M !! k) as [row'|] eqn:Hrow'; [|done]. simpl in Hk.
    simplify_eq. rewrite length_insert.
    apply (Forall_lookup_1 _ _ _ _ Hrows Hrow').
  - rewrite list_lookup_alter_ne in Hk by done.
    apply (Forall_lookup_1 _ _ _ _ Hrows Hk).
Qed.

Lemma get_set_eq (n : nat) (M : matrix) (i j : nat) (v : Q) :
  shape n M -> (i < n)%nat -> (j < n)%nat -> get (set M i j v) i j = Some v.
Proof.
  intros [Hlen Hrows] Hi Hj. unfold get, set.
  rewrite list_lookup_alter_eq. rewrite <- Hlen in Hi.
  destruct (lookup_lt_is_Some_2 M i Hi) as [row Hrow]. rewrite Hrow. simpl.
  apply list_lookup_insert_eq.
  rewrite (Forall_lookup_1 _ _ _ _ Hrows Hrow). done.
Qed.

Lemma get_set_ne (M : matrix) (i j i' j' : nat) (v : Q) :
  (i', j') ≠ (i, j) -> get (set M i j v) i' j' = get M i' j'.
Proof.
  intros Hne. unfold get, set.
  destruct (decide (i = i')) as [->|Hi].
  - rewrite list_lookup_alter_eq. destruct (M !! i') as [row|]; [|done].
    simpl. apply list_lookup_insert_ne. congruence.
  - by rewrite list_lookup_alter_ne.
Qed.

Lemma set_diagonal_spec (n : nat) (M : matrix) (ks : list nat) :
  shape n M -> Forall (fun k => (k < n)%nat) ks ->
  let C := fold_left (fun M i => set M i i sentinel) ks M in
  shape n C /\
  (forall i, i ∈ ks -> get C i i = Some sentinel) /\
  (forall i j, ¬ (i = j /\ i ∈ ks) -> get C i j = get M i j).
Proof.
  intros HM Hks. revert M HM.
  induction Hks as [|k ks Hk _ IH]; intros M HM; simpl.
  - split; [done|]. split; [|done]. intros i Hi. by apply elem_of_nil in Hi.
  - destruct (IH (set M k k sentinel) (shape_set n M k k sentinel HM))
      as (Hs & Hd & Ho).
    split; [done|]. split.
    + intros i Hi. destruct (decide (i ∈ ks)) as [Hin|Hin]; [by apply Hd|].
      apply elem_of_cons in Hi as [->|Hi]; [|done].
      rewrite Ho by tauto. by apply (get_set_eq n).
    + intros i j Hij. rewrite Ho.
      * apply get_set_ne. intros [= -> ->]. apply Hij. split; [done|].
        apply list_elem_of_here.
      * intros [-> Hin]. apply Hij. split; [done|].
        by apply list_elem_of_further.
Qed.

Lemma set_diagonal_shape (n : nat) (M : matrix) :
  shape n M -> shape n (set_diagonal n M).
Proof.
  intros HM. apply (set_diagonal_spec n M (range n) HM).
  apply Forall_forall. intros k. apply elem_of_range.
Qed.

Lemma set_diagonal_diag (n : nat) (M : matrix) (i : nat) :
  shape n M -> (i < n)%nat -> entry (set_diagonal n M) i i = sentinel.
Proof.
  intros HM Hi. unfold entry.
  assert (Forall (fun k => (k < n)%nat) (range n)) as Hr
    by (apply Forall_forall; intros k; apply elem_of_range).
  destruct (set_diagonal_spec n M (range n) HM Hr) as (_ & Hd & _).
  unfold set_diagonal. rewrite Hd; [done|by apply elem_of_range].
Qed.

Lemma set_diagonal_off (n : nat) (M : matrix) (i j : nat) :
  shape n M -> i ≠ j -> entry (set_diagonal n M) i j = entry M i j.
Proof.
  intros HM Hij. unfold entry.
  assert (Forall (fun k => (k < n)%nat) (range n)) as Hr
    by (apply Forall_forall; intros k; apply elem_of_range).
  destruct (set_diagonal_spec n M (range n) HM Hr) as (_ & _ & Ho).
  unfold set_diagonal. rewrite Ho; [done|tauto].
Qed.

Lemma elem_of_full_objective (n : nat) (M : matrix) (t : Q * var) :
  t ∈ full_objective n M <->
  exists i j, (i < n)%nat /\ (j < n)%nat /\ t = (entry M i j, x_ i j).
Proof.
  unfold full_objective. rewrite list_elem_of_bind. split.
  - intros (i & Ht & Hi). apply list_elem_of_bind in Ht as (j & Ht & Hj).
    apply list_elem_of_ret in Ht. apply elem_of_range in Hi, Hj. eauto.
  - intros (i & j & Hi & Hj & ->). exists i. split; [|by apply elem_of_range].
    apply list_elem_of_bind. exists j.
    split; [by apply list_elem_of_ret|by apply elem_of_range].
Qed.

(** C4, as stated, fails: with two nodes the objective of the notebook
    contains the self-arc term [1e12*x[0,0]], and on the assignment
    [x[0,0] = x[1,1] = 1] its value is not that of the sum over the
    pairs [i ≠ j]. *)
Lemma self_arc_terms_in_objective :
  let C := set_diagonal 2 (zeros 2) in
  (sentinel, x_ 0 0) ∈ loss (build_model 2) C /\
  ~ (value self_loops (loss (build_model 2) C) ==
     value self_loops (off_diagonal_objective 2 C))%Q.
Proof.
  split.
  - apply list_elem_of_In. vm_compute. left. reflexivity.
  - vm_compute. discriminate.
Qed.

(** C4, amended: for an [n] by [n] cost matrix whose diagonal has been
    set to the sentinel, the objective of the assembled model has one
    term [M[i][j]*x[i,j]] for every ordered pair of nodes, [i = j]
    included: the terms of the pairs [i ≠ j] carry the travel times and
    every self-arc term [1e12*x[i,i]] is present; this expression is the
    one the model minimises. *)
Theorem objective_terms (n : nat) (M : matrix) :
  shape n M ->
  let C := set_diagonal n M in
  loss (build_model n) C = full_objective n C /\
  (forall i, (i < n)%nat -> (sentinel, x_ i i) ∈ loss (build_model n) C) /\
  (forall i j, (i < n)%nat -> (j < n)%nat -> i ≠ j ->
     (entry M i j, x_ i j) ∈ loss (build_model n) C) /\
  minimized (minimize (build_model n) (loss (build_model n) C)) =
    Some (full_objective n C).
Proof.
  intros HM C.
  assert (loss (build_model n) C = full_objective n C) as Hloss
    by (by apply loss_full, set_diagonal_shape).
  split; [done|]. rewrite Hloss. split; [|split; [|done]].
  - intros i Hi. apply elem_of_full_objective. exists i, i.
    split; [done|]. split; [done|].
    unfold C. by rewrite set_diagonal_diag.
  - intros i j Hi Hj Hij. apply elem_of_full_objective. exists i, j.
    split; [done|]. split; [done|].
    unfold C. by rewrite set_diagonal_off.
Qed.

Lemma objective_terms_witness :
  (sentinel, x_ 1 1) ∈ loss (build_model 2) (set_diagonal 2 (zeros 2)).
Proof.
  destruct (objective_terms 2 (zeros 2) (shape_zeros 2)) as (_ & Hd & _).
  apply (Hd 1%nat). lia.
Defined.

(** ** The sentinel and self-arcs *)

Lemma inject_Z_nonneg (z : Z) : 0 <= z -> (0 <= inject_Z z)%Q.
Proof. intros Hz. unfold Qle. simpl. lia. Qed.

Lemma value_ge_term (a : assignment) (o : objective) :
  (forall t, t ∈ o -> (0 <= t.1)%Q /\ 0 <= a t.2) ->
  (0 <= value a o)%Q /\
  forall t, t ∈ o -> (t.1 * inject_Z (a t.2) <= value a o)%Q.
Proof.
  induction o as [|t' o IH]; intros Hpos.
  - split; [apply Qle_refl|]. intros t Ht. by apply elem_of_nil in Ht.
  - assert (forall t, t ∈ o -> (0 <= t.1)%Q /\ 0 <= a t.2) as Hpos'
      by (intros t Ht; apply Hpos; by apply list_elem_of_further).
    destruct (IH Hpos') as [H0 Hterm].
    destruct (Hpos t' (list_elem_of_here _ _)) as [Hc Ha].
    assert (0 <= t'.1 * inject_Z (a t'.2))%Q as Ht'
      by (apply Qmult_le_0_compat; [done|by apply inject_Z_nonneg]).
    cbn [value foldr]. fold (value a o). split.
    + lra.
    + intros t Ht. apply elem_of_cons in Ht as [->|Ht].
      * lra.
      * specialize (Hterm t Ht). lra.
Qed.

Lemma sentinel_pos : (0 <= sentinel)%Q.
Proof. unfold sentinel. apply inject_Z_nonneg. lia. Qed.

(** With non-negative travel times every term of the objective is
    non-negative under a feasible assignment. *)
Lemma loss_terms_nonneg (n : nat) (M : matrix) (a : assignment) :
  shape n M ->
  (forall i j, (i < n)%nat -> (j < n)%nat -> i ≠ j -> (0 <= entry M i j)%Q) ->
  feasible (build_model n) a ->
  forall t, t ∈ loss (build_model n) (set_diagonal n M) ->
    (0 <= t.1)%Q /\ 0 <= a t.2.
Proof.
  intros HM Hpos Hf t Ht. apply feasible_build_model in Hf.
  rewrite loss_full in Ht by (by apply set_diagonal_shape).
  apply elem_of_full_objective in Ht as (i & j & Hi & Hj & ->). simpl. split.
  - destruct (decide (i = j)) as [->|Hij].
    + rewrite set_diagonal_diag by done. apply sentinel_pos.
    + rewrite set_diagonal_off by done. by apply Hpos.
  - destruct (tf_binary n a Hf i j Hi Hj) as [-> | ->]; lia.
Qed.

Lemma self_arc_costs_sentinel (n : nat) (M : matrix) (a : assignment)
    (i : nat) :
  shape n M ->
  (forall i j, (i < n)%nat -> (j < n)%nat -> i ≠ j -> (0 <= entry M i j)%Q) ->
  feasible (build_model n) a -> (i < n)%nat -> a (x_ i i) = 1 ->
  (sentinel <= value a (loss (build_model n) (set_diagonal n M)))%Q.
Proof.
  intros HM Hpos Hf Hi Hsel.
  destruct (value_ge_term a _ (loss_terms_nonneg n M a HM Hpos Hf))
    as [_ Hterm].
  specialize (Hterm (sentinel, x_ i i)). simpl in Hterm. rewrite Hsel in Hterm.
  assert ((sentinel, x_ i i) ∈ loss (build_model n) (set_diagonal n M)) as Hin.
  { rewrite loss_full by (by apply set_diagonal_shape).
    apply elem_of_full_objective. exists i, i. split; [done|]. split; [done|].
    by rewrite set_diagonal_diag. }
  specialize (Hterm Hin). change (inject_Z 1) with 1%Q in Hterm. lra.
Qed.

Lemma feasible_minimize (m : Model) (o : objective) (a : assignment) :
  feasible (minimize m o) a <-> feasible m a.
Proof. reflexivity. Qed.

Lemma pair_and_loop_feasible : feasible (build_model 3) pair_and_loop.
Proof.
  apply feasible_build_model. split.
  - intros i j Hi Hj. below i Hi; below j Hj; simpl; auto.
  - intros i Hi. simpl. lia.
  - intros i Hi. below i Hi; reflexivity.
  - intros j Hj. below j Hj; reflexivity.
  - intros i j Hi Hj Hi0 Hj0 Hij. below i Hi; below j Hj; simpl; lia.
  - intros i Hi. simpl. lia.
Qed.



Lemma value_app (a : assignment) (o1 o2 : objective) :
  (value a (o1 ++ o2) == value a o1 + value a o2)%Q.
Proof.
  induction o1 as [|t o1 IH]; simpl.
  - lra.
  - unfold value in *. simpl. rewrite IH. lra.
Qed.

Lemma value_row_le (a : assignment) (C : matrix) (c : Q) (i : nat)
    (js : list nat) :
  (forall j, j ∈ js ->
     a (x_ i j) = 0 \/ (a (x_ i j) = 1 /\ (entry C i j <= c)%Q)) ->
  (value a ((fun j => (entry C i j, x_ i j)) <$> js) <=
   c * inject_Z (sumZ (fun j => a (x_ i j)) js))%Q.
Proof.
  induction js as [|j js IH]; intros Hjs.
  - cbn. change (inject_Z 0) with 0%Q. lra.
  - assert (forall k, k ∈ js ->
              a (x_ i k) = 0 \/ (a (x_ i k) = 1 /\ (entry C i k <= c)%Q)) as Hjs'
      by (intros k Hk; apply Hjs; by apply list_elem_of_further).
    specialize (IH Hjs'). rewrite fmap_cons.
    cbn [value foldr sumZ fst snd].
    fold (value a ((fun j => (entry C i j, x_ i j)) <$> js)).
    fold (sumZ (fun j => a (x_ i j)) js).
    rewrite inject_Z_plus.
    destruct (Hjs j (list_elem_of_here _ _)) as [-> | [-> Hle]].
    + change (inject_Z 0) with 0%Q.
      set (V := value a _) in *. set (S := inject_Z _) in *. clearbody V S.
      lra.
    + change (inject_Z 1) with 1%Q.
      set (V := value a _) in *. set (S := inject_Z _) in *. clearbody V S.
      lra.
Qed.

Lemma value_rows_le (a : assignment) (row : nat -> objective) (c : Q)
    (rows : list nat) :
  (forall i, i ∈ rows -> (value a (row i) <= c)%Q) ->
  (value a (concat (row <$> rows)) <=
   inject_Z (Z.of_nat (length rows)) * c)%Q.
Proof.
  induction rows as [|i rows IH]; intros Hrows.
  - change (0 <= 0 * c)%Q. lra.
  - rewrite fmap_cons. cbn [concat]. rewrite value_app.
    rewrite length_cons, Nat2Z.inj_succ. unfold Z.succ. rewrite inject_Z_plus.
    pose proof (Hrows i (list_elem_of_here _ _)).
    assert (value a (concat (row <$> rows)) <=
            inject_Z (Z.of_nat (length rows)) * c)%Q
      by (apply IH; intros k Hk; apply Hrows; by apply list_elem_of_further).
    change (inject_Z 1) with 1%Q. lra.
Qed.

Lemma succ_of_ne (n : nat) (tour : list nat) (i : nat) :
  hamiltonian n tour -> (2 <= n)%nat -> (i < n)%nat -> succ_of tour i ≠ i.
Proof.
  intros Ht Hn Hi Heq.
  pose proof (index_succ_of n tour Ht i Hi) as Hidx. rewrite Heq in Hidx.
  pose proof (tour_index_lt n tour Ht i Hi).
  unfold next_index in Hidx. destruct (decide _); lia.
Qed.

Lemma tour_value_le (n : nat) (M : matrix) (c : Q) (tour : list nat) :
  shape n M -> hamiltonian n tour -> (2 <= n)%nat ->
  (forall i j, (i < n)%nat -> (j < n)%nat -> i ≠ j -> (entry M i j <= c)%Q) ->
  (value (tour_assignment tour) (loss (build_model n) (set_diagonal n M)) <=
   inject_Z (Z.of_nat n) * c)%Q.
Proof.
  intros HM Ht Hn Hc. rewrite loss_full by (by apply set_diagonal_shape).
  unfold full_objective. rewrite bind_fmap_concat.
  assert (length (range n) = n) as Hlen by (unfold range; apply length_seq).
  eapply Qle_trans;
    [apply (value_rows_le _ _ c)|rewrite Hlen; apply Qle_refl].
  intros i Hi. apply elem_of_range in Hi. rewrite bind_ret_fmap.
  pose proof (tour_feasible n tour Ht) as Hf.
  pose proof (value_row_le (tour_assignment tour) (set_diagonal n M) c i
                (range n)) as Hrow.
  rewrite (tf_out n _ Hf i Hi) in Hrow. change (inject_Z 1) with 1%Q in Hrow.
  rewrite Qmult_1_r in Hrow. apply Hrow.
  intros j Hj. apply elem_of_range in Hj. simpl.
  destruct (decide (succ_of tour i = j)) as [Hs|Hs]; [right|by left].
  split; [done|].
  assert (i ≠ j) as Hij by (intros ->; by apply (succ_of_ne n tour j Ht)).
  rewrite set_diagonal_off by done. by apply Hc.
Qed.



(** ** Filling the matrix *)

Lemma for_each_ok {A S} (l : list A) (body : A -> S -> ext S)
    (c : A -> list call) (g : A -> S -> S) :
  (forall a, a ∈ l -> forall s log, body a s log = (log ++ c a, Ok (g a s))) ->
  forall s log,
    for_each l body s log =
    (log ++ concat (c <$> l), Ok (fold_left (fun s a => g a s) l s)).
Proof.
  induction l as [|a l IH]; intros Hbody s log.
  - simpl. unfold ret. by rewrite app_nil_r.
  - cbn [for_each]. unfold bind at 1.
    rewrite (Hbody a (list_elem_of_here _ _)).
    rewrite IH by (intros a' Ha'; apply Hbody; by apply list_elem_of_further).
    simpl. by rewrite <- app_assoc.
Qed.

Lemma for_each_raises {A S} (l : list A) (body : A -> S -> ext S) (a : A) :
  a ∈ l ->
  (forall s log, exists log' e, body a s log = (log', Raise e)) ->
  forall s log, exists log' e, for_each l body s log = (log', Raise e).
Proof.
  intros Ha Hbody. induction l as [|a' l IH]; intros s log.
  - by apply elem_of_nil in Ha.
  - cbn [for_each]. unfold bind at 1.
    destruct (body a' s log) as [log1 [s1|e]] eqn:Hrun; [|eauto].
    apply elem_of_cons in Ha as [->|Ha]; [|by apply IH].
    destruct (Hbody s log) as (log' & e & He). congruence.
Qed.

Section Fill.

Variable directions : string -> string -> option Z.
Variable location : list string.

Lemma item_place (i : nat) (log : list call) :
  (i < length location)%nat ->
  item location i log = (log, Ok (place location i)).
Proof.
  intros Hi. unfold item, place.
  destruct (lookup_lt_is_Some_2 location i Hi) as [a Ha]. by rewrite Ha.
Qed.

Lemma places_location : place location <$> range (length location) = location.
Proof.
  apply list_eq. intros i. rewrite list_lookup_fmap. unfold range, place.
  destruct (decide (i < length location)%nat) as [Hi|Hi].
  - rewrite lookup_seq_lt by done. simpl.
    destruct (lookup_lt_is_Some_2 location i Hi) as [a Ha]. by rewrite Ha.
  - rewrite lookup_seq_ge by lia. by rewrite lookup_ge_None_2 by lia.
Qed.

Lemma fill_entry_ok (i j : nat) (M : matrix) (log : list call) :
  (i < length location)%nat -> (j < length location)%nat ->
  is_Some (directions (place location i) (place location j)) ->
  fill_entry directions location i j M log =
  (log ++ [(place location i, place location j)],
   Ok (set M i j (hours directions location i j))).
Proof.
  intros Hi Hj [secs Hsecs]. unfold fill_entry, bind.
  rewrite (item_place i) by done. rewrite (item_place j) by done.
  unfold get_distance, hours, seconds. by rewrite Hsecs.
Qed.

Lemma fill_entry_raises (i j : nat) (M : matrix) (log : list call) :
  (i < length location)%nat -> (j < length location)%nat ->
  directions (place location i) (place location j) = None ->
  fill_entry directions location i j M log =
  (log ++ [(place location i, place location j)],
   Raise (LookupFailed (place location i) (place location j))).
Proof.
  intros Hi Hj Hnone. unfold fill_entry, bind.
  rewrite (item_place i) by done. rewrite (item_place j) by done.
  unfold get_distance. by rewrite Hnone.
Qed.

Lemma write_row_spec (n i : nat) (js : list nat) (M : matrix) :
  shape n M -> (i < n)%nat -> Forall (fun j => (j < n)%nat) js ->
  shape n (write_row directions location i js M) /\
  (forall j, j ∈ js ->
     get (write_row directions location i js M) i j =
     Some (hours directions location i j)) /\
  (forall i' j', ¬ (i' = i /\ j' ∈ js) ->
     get (write_row directions location i js M) i' j' = get M i' j').
Proof.
  intros HM Hi Hjs. revert M HM.
  induction Hjs as [|j js Hj _ IH]; intros M HM; unfold write_row; simpl.
  - split; [done|]. split; [|done]. intros j Hj. by apply elem_of_nil in Hj.
  - destruct (IH (set M i j (hours directions location i j))
                (shape_set n M i j _ HM))
      as (Hs & Hd & Ho).
    unfold write_row in *. split; [done|]. split.
    + intros j' Hj'. destruct (decide (j' ∈ js)) as [Hin|Hin]; [by apply Hd|].
      apply elem_of_cons in Hj' as [->|Hj']; [|done].
      rewrite Ho by tauto. by apply (get_set_eq n).
    + intros i' j' Hij. rewrite Ho.
      * apply get_set_ne. intros [= -> ->]. apply Hij. split; [done|].
        apply list_elem_of_here.
      * intros [-> Hin]. apply Hij. split; [done|].
        by apply list_elem_of_further.
Qed.

Lemma write_rows_spec (n : nat) (ks : list nat) (M : matrix) :
  shape n M -> Forall (fun k => (k < n)%nat) ks ->
  shape n (write_rows directions location n ks M) /\
  (forall i j, i ∈ ks -> (j < n)%nat ->
     get (write_rows directions location n ks M) i j =
     Some (hours directions location i j)) /\
  (forall i j, i ∉ ks ->
     get (write_rows directions location n ks M) i j = get M i j).
Proof.
  intros HM Hks. revert M HM.
  assert (Forall (fun j => (j < n)%nat) (range n)) as Hr
    by (apply Forall_forall; intros k; apply elem_of_range).
  induction Hks as [|k ks Hk _ IH]; intros M HM; unfold write_rows; simpl.
  - split; [done|]. split; [|done]. intros i j Hi. by apply elem_of_nil in Hi.
  - destruct (write_row_spec n k (range n) M HM Hk Hr) as (Hs1 & Hd1 & Ho1).
    destruct (IH (write_row directions location k (range n) M) Hs1)
      as (Hs & Hd & Ho).
    unfold write_rows in *. split; [done|]. split.
    + intros i j Hi Hj.
      destruct (decide (i ∈ ks)) as [Hin|Hin]; [by apply Hd|].
      apply elem_of_cons in Hi as [->|Hi]; [|done].
      rewrite Ho by done. by apply Hd1, elem_of_range.
    + intros i j Hi. apply not_elem_of_cons in Hi as [Hne Hi].
      rewrite Ho by done. apply Ho1. tauto.
Qed.

Lemma fill_row_ok (i : nat) (M : matrix) (log : list call) :
  let n := length location in
  (i < n)%nat ->
  (forall j, (j < n)%nat ->
     is_Some (directions (place location i) (place location j))) ->
  fill_row directions location n i M log =
  (log ++ ((fun j => (place location i, place location j)) <$> range n),
   Ok (write_row directions location i (range n) M)).
Proof.
  intros n Hi Hsome. unfold fill_row.
  rewrite (for_each_ok _ _ (fun j => [(place location i, place location j)])
             (fun j M => set M i j (hours directions location i j))).
  - by rewrite <- bind_fmap_concat, bind_ret_fmap.
  - intros j Hj M' log'. apply elem_of_range in Hj.
    apply fill_entry_ok; auto.
Qed.

Lemma fill_cost_ok (log : list call) :
  let n := length location in
  (forall i j, (i < n)%nat -> (j < n)%nat ->
     is_Some (directions (place location i) (place location j))) ->
  fill_cost directions location log =
  (log ++ all_pairs location,
   Ok (write_rows directions location n (range n) (zeros n))).
Proof.
  intros n Hsome. unfold fill_cost. fold n.
  rewrite (for_each_ok _ _
             (fun i => (fun j => (place location i, place location j)) <$> range n)
             (fun i M => write_row directions location i (range n) M)).
  - f_equal. f_equal. unfold all_pairs.
    rewrite <- bind_fmap_concat.
    rewrite <- places_location at 1. fold n. rewrite list_fmap_bind.
    apply list_bind_ext; [|done]. intros i. simpl.
    rewrite <- places_location at 1. fold n. rewrite list_fmap_bind.
    symmetry. apply bind_ret_fmap.
  - intros i Hi M' log'. apply elem_of_range in Hi.
    apply fill_row_ok; auto.
Qed.

Lemma fill_cost_raises (i : nat) (log : list call) :
  (i < length location)%nat ->
  directions (place location i) (place location i) = None ->
  exists log' e, fill_cost directions location log = (log', Raise e).
Proof.
  intros Hi Hnone. unfold fill_cost.
  apply (for_each_raises _ _ i); [by apply elem_of_range|].
  intros M log1. unfold fill_row.
  apply (for_each_raises _ _ i); [by apply elem_of_range|].
  intros M' log2. rewrite fill_entry_raises by done. eauto.
Qed.

End Fill.

Lemma length_pairs {A} (l1 l2 : list A) :
  length (a ← l1; b ← l2; [(a, b)]) = (length l1 * length l2)%nat.
Proof.
  induction l1 as [|a l1 IH]; [done|].
  rewrite bind_cons, length_app, IH, bind_ret_fmap, length_fmap. simpl. lia.
Qed.

Lemma self_pair_in_all_pairs (location : list string) (i : nat) :
  (i < length location)%nat ->
  (place location i, place location i) ∈ all_pairs location.
Proof.
  intros Hi. unfold place.
  destruct (lookup_lt_is_Some_2 location i Hi) as [a Ha]. rewrite Ha. simpl.
  apply list_elem_of_lookup_2 in Ha. unfold all_pairs.
  apply list_elem_of_bind. exists a. split; [|done].
  apply list_elem_of_bind. exists a. split; [|done]. by apply list_elem_of_ret.
Qed.

(** C10: when every lookup answers, filling the matrix calls the
    external function once for each of the n² ordered pairs of places,
    each self-pair included, and leaves in every entry, diagonal
    included, the looked-up duration divided by 3600.  The notebook
    then runs the sentinel cell on this very matrix: in the assembled
    notebook the matrix is the filled one with its diagonal
    overwritten, so the diagonal holds the sentinel and the other
    entries their looked-up hours; the objective that is minimised is
    built from the overwritten matrix, so the one term of [x[i,i]] has
    the sentinel for coefficient and the term of [x[i,j]] the looked-up
    hours; and the matrix stays so to the end of the run.  The
    looked-up self-travel times are thus in no later state.  When the
    lookup of a self-pair fails, filling the matrix raises, and so does
    the notebook. *)
Theorem self_pairs_are_looked_up (directions : string -> string -> option Z)
    (location : list string) :
  let n := length location in
  ((forall i j, (i < n)%nat -> (j < n)%nat ->
      is_Some (directions (place location i) (place location j))) ->
   exists M,
     fill_cost directions location [] = (all_pairs location, Ok M) /\
     length (all_pairs location) = (n * n)%nat /\
     (forall i, (i < n)%nat ->
        (place location i, place location i) ∈ all_pairs location) /\
     (forall i j, (i < n)%nat -> (j < n)%nat ->
        get M i j = Some (hours directions location i j)) /\
     (forall i, (i < n)%nat -> get (set_diagonal n M) i i = Some sentinel) /\
     exists s obj,
       assemble directions location [] = (all_pairs location, Ok s) /\
       cost s = set_diagonal n M /\
       (forall i j, (i < n)%nat -> (j < n)%nat ->
          get (cost s) i j =
          Some (if decide (i = j) then sentinel
                else hours directions location i j)) /\
       minimized (model s) = Some obj /\
       obj = loss (build_model n) (cost s) /\
       (forall i j c, (i < n)%nat -> (j < n)%nat ->
          (c, x_ i j) ∈ obj <->
          c = if decide (i = j) then sentinel
              else hours directions location i j) /\
       forall solver sol, solver (model s) = Some sol ->
         exists final,
           run directions solver location [] =
             (all_pairs location, Ok final) /\
           cost final = cost s /\ model final = model s) /\
  (forall i, (i < n)%nat ->
     directions (place location i) (place location i) = None ->
     (exists log e, fill_cost directions location [] = (log, Raise e)) /\
     forall solver, exists log e,
       run directions solver location [] = (log, Raise e)).
Proof.
  intros n. split.
  - intros Hsome. exists (write_rows directions location n (range n) (zeros n)).
    assert (Forall (fun k => (k < n)%nat) (range n)) as Hr
      by (apply Forall_forall; intros k; apply elem_of_range).
    destruct (write_rows_spec directions location n (range n) (zeros n)
                (shape_zeros n) Hr) as (Hs & Hd & _).
    set (M := write_rows directions location n (range n) (zeros n)) in *.
    assert (forall i j, (i < n)%nat -> (j < n)%nat ->
              get M i j = Some (hours directions location i j)) as HM.
    { intros i j Hi Hj. apply Hd; [by apply elem_of_range|done]. }
    assert (forall i j, (i < n)%nat -> (j < n)%nat ->
              get (set_diagonal n M) i j =
              Some (if decide (i = j) then sentinel
                    else hours directions location i j)) as HC.
    { intros i j Hi Hj.
      destruct (set_diagonal_spec n M (range n) Hs Hr) as (_ & Hdiag & Hoff).
      unfold set_diagonal. destruct (decide (i = j)) as [->|Hij].
      - apply Hdiag. by apply elem_of_range.
      - rewrite Hoff by tauto. by apply HM. }
    split; [by rewrite fill_cost_ok|].
    split; [apply length_pairs|].
    split; [intros i Hi; by apply self_pair_in_all_pairs|].
    split; [done|].
    split.
    { intros i Hi. rewrite HC by done. by destruct (decide (i = i)). }
    set (s := cell_objective
                (cell_sentinel location
                   (cell_constraints location
                      (mkNotebook M empty_model None (mkDiGraph []))))).
    assert (assemble directions location [] = (all_pairs location, Ok s))
      as Hassemble
      by (unfold assemble, cell_cost, bind; by rewrite fill_cost_ok).
    exists s, (loss (build_model n) (set_diagonal n M)).
    split; [done|].
    split; [done|]. split; [done|]. split; [done|]. split; [done|]. split.
    + intros i j c Hi Hj.
      rewrite (loss_full n) by (by apply set_diagonal_shape).
      rewrite elem_of_full_objective. unfold entry. split.
      * intros (i' & j' & Hi' & Hj' & Heq). injection Heq as -> <- <-.
        by rewrite HC.
      * intros ->. exists i, j. split; [done|]. split; [done|].
        by rewrite HC.
    + intros solver sol Hsol. eexists. split.
      * unfold run, bind. rewrite Hassemble. unfold cell_graph.
        cbn [solution cell_solve]. rewrite Hsol. reflexivity.
      * done.
  - intros i Hi Hnone.
    destruct (fill_cost_raises directions location i [] Hi Hnone)
      as (log & e & Hfill).
    split; [eauto|]. intros solver. exists log, e.
    unfold run, assemble, cell_cost, bind. by rewrite Hfill.
Qed.

Lemma self_pairs_are_looked_up_witness :
  (exists M s,
     fill_cost remote_directions three_places [] =
       (all_pairs three_places, Ok M) /\
     get M 2 2 = Some (hours remote_directions three_places 2 2) /\
     assemble remote_directions three_places [] =
       (all_pairs three_places, Ok s) /\
     get (cost s) 2 2 = Some sentinel /\
     forall c, (c, x_ 2 2) ∈ default [] (minimized (model s)) ->
       c = sentinel) /\
  exists log e, fill_cost no_self_route three_places [] = (log, Raise e).
Proof.
  split.
  - destruct (self_pairs_are_looked_up remote_directions three_places)
      as [Hok _].
    destruct Hok as (M & Hfill & _ & _ & Hget & _ & s & obj & Hs & _ & Hc &
                     Hmin & _ & Hobj & _).
    + intros i j _ _. unfold remote_directions.
      destruct (_ || _); eauto.
    + exists M, s. split; [exact Hfill|].
      split; [apply Hget; simpl; lia|]. split; [exact Hs|].
      split; [apply (Hc 2%nat 2%nat); simpl; lia|].
      intros c. rewrite Hmin. simpl. intros Hin.
      apply (Hobj 2%nat 2%nat c) in Hin; [exact Hin|simpl; lia..].
  - destruct (self_pairs_are_looked_up no_self_route three_places)
      as [_ Hfail].
    apply (Hfail 0%nat); [simpl; lia|reflexivity].
Defined.

(** ** Sizes below two *)

(** C6, as stated, fails: with a single location the model is built
    (one binary variable, one integer variable, three constraints), the
    solver is called and the notebook ends with the graph of the arc
    [(0,0)]; with no location at all the empty model is built.  Nothing
    is raised. *)
Lemma one_location_is_modelled_and_solved :
  (exists log s,
     assemble remote_directions ["a"%string] [] = (log, Ok s) /\
     information (model s) = (1, 1, 3)%nat /\
     exists log' s',
       run remote_directions loop_solver ["a"%string] [] = (log', Ok s') /\
       edges (G s') = [(0, 0)%nat]) /\
  (exists log s,
     assemble remote_directions [] [] = (log, Ok s) /\
     information (model s) = (0, 0, 0)%nat).
Proof.
  split.
  - eexists _, _. split; [reflexivity|]. split; [reflexivity|].
    eexists _, _. split; reflexivity.
  - eexists _, _. split; reflexivity.
Qed.

(** C6, amended: no number of locations makes model building fail.  For
    every [n], 0 and 1 included, once the lookups have answered the
    notebook declares the variables, adds the constraints, sets the
    objective and reaches the solver; the only exception raised before
    the solver runs is that of a failed lookup. *)
Theorem model_is_built_for_every_size
    (directions : string -> string -> option Z) (location : list string) :
  let n := length location in
  (forall i j, (i < n)%nat -> (j < n)%nat ->
     is_Some (directions (place location i) (place location j))) ->
  exists s,
    assemble directions location [] = (all_pairs location, Ok s) /\
    model s = minimize (build_model n) (loss (build_model n) (cost s)) /\
    forall solver sol, solver (model s) = Some sol ->
      exists final,
        run directions solver location [] = (all_pairs location, Ok final) /\
        solution final = Some sol.
Proof.
  intros n Hsome. unfold run, assemble, cell_cost, bind.
  rewrite fill_cost_ok by done. eexists. split; [reflexivity|].
  split; [reflexivity|]. intros solver sol Hsol.
  unfold ret, cell_graph. cbn [solution cell_solve]. rewrite Hsol.
  eexists. split; [reflexivity|]. rewrite <- Hsol. reflexivity.
Qed.

Lemma model_is_built_for_every_size_witness :
  exists s,
    assemble remote_directions ["a"%string] [] =
      (all_pairs ["a"%string], Ok s) /\
    model s = minimize (build_model 1) (loss (build_model 1) (cost s)).
Proof.
  destruct (model_is_built_for_every_size remote_directions ["a"%string])
    as (s & Hs & Hm & _).
  - intros i j _ _. unfold remote_directions. destruct (_ || _); eauto.
  - exists s. split; [exact Hs|exact Hm].
Defined.

(** ** The extracted edges *)

(** C7, as stated, fails: a solution value of 0.999, greater than 0.5,
    is not selected; only a value equal to 1 is. *)
Lemma nearly_one_is_not_selected :
  (1 # 2 < 999 # 1000)%Q /\
  get_edges [((0, 1)%nat, 999 # 1000); ((1, 0)%nat, 1%Q)] = [(1, 0)%nat].
Proof. split; reflexivity. Qed.

(** C7, amended: the extractor selects exactly the ordered pairs [(i,j)]
    whose solved [x[i,j]] value is equal to 1; the comparison is exact,
    there is no tolerance. *)
Theorem get_edges_exact (x : list ((nat * nat) * Q)) (k : nat * nat) :
  k ∈ get_edges x <-> exists v, (k, v) ∈ x /\ (v == 1)%Q.
Proof.
  unfold get_edges. rewrite list_elem_of_bind. split.
  - intros ([k' v] & Hk & Hin). simpl in Hk.
    destruct (Qeq_bool v 1) eqn:Hv; [|by apply elem_of_nil in Hk].
    apply list_elem_of_singleton in Hk as ->.
    exists v. split; [done|]. by apply Qeq_bool_iff.
  - intros (v & Hin & Hv). exists (k, v). split; [|done]. simpl.
    apply Qeq_bool_iff in Hv. rewrite Hv. apply list_elem_of_here.
Qed.

Lemma elem_of_edges (g : DiGraph) (e : nat * nat) :
  e ∈ edges g <-> exists nbrs, (e.1, nbrs) ∈ adj g /\ e.2 ∈ nbrs.
Proof.
  unfold edges. rewrite list_elem_of_bind. split.
  - intros ([u nbrs] & He & Hua). simpl in He.
    apply list_elem_of_bind in He as (v & He & Hv).
    apply list_elem_of_ret in He as ->. by exists nbrs.
  - intros (nbrs & Hua & Hv). exists (e.1, nbrs). split; [|done]. simpl.
    apply list_elem_of_bind. exists e.2. split; [|done].
    apply list_elem_of_ret. by destruct e.
Qed.

Lemma edges_add_node (v : nat) (g : DiGraph) : edges (add_node v g) = edges g.
Proof.
  unfold add_node. destruct (decide _); [done|].
  unfold edges. cbn [adj]. rewrite bind_app. simpl. by rewrite app_nil_r.
Qed.

Lemma elem_of_nodes_add_node (v w : nat) (g : DiGraph) :
  w ∈ nodes (add_node v g) <-> w = v \/ w ∈ nodes g.
Proof.
  unfold add_node. destruct (decide _) as [Hin|Hin].
  - split; [auto|]. intros [->|H]; done.
  - unfold nodes. cbn [adj]. rewrite fmap_app, elem_of_app. simpl.
    rewrite list_elem_of_singleton. tauto.
Qed.

Lemma add_successor_fst (u v : nat) (ua : nat * list nat) :
  (add_successor u v ua).1 = ua.1.
Proof. unfold add_successor. by repeat destruct (decide _). Qed.

Lemma nodes_add_edge (e : nat * nat) (g : DiGraph) :
  nodes (add_edge e g) = nodes (add_node e.2 (add_node e.1 g)).
Proof.
  unfold add_edge, nodes. cbn [adj]. rewrite <- list_fmap_compose.
  apply list_fmap_ext. intros _ ua _. apply add_successor_fst.
Qed.

Lemma elem_of_add_successor (u v w : nat) (ua : nat * list nat) :
  w ∈ (add_successor u v ua).2 <-> w ∈ ua.2 \/ (ua.1 = u /\ w = v).
Proof.
  unfold add_successor. destruct (decide (ua.1 = u)) as [Hu|Hu].
  - destruct (decide (v ∈ ua.2)) as [Hv|Hv].
    + split; [auto|]. intros [H|[_ ->]]; done.
    + simpl. rewrite elem_of_app, list_elem_of_singleton. tauto.
  - tauto.
Qed.

Lemma elem_of_edges_add_edge (e e' : nat * nat) (g : DiGraph) :
  e' ∈ edges (add_edge e g) <-> e' = e \/ e' ∈ edges g.
Proof.
  rewrite <- (edges_add_node e.1 g), <- (edges_add_node e.2 (add_node e.1 g)).
  assert (e.1 ∈ nodes (add_node e.2 (add_node e.1 g))) as Hsrc
    by (rewrite !elem_of_nodes_add_node; auto).
  set (g' := add_node e.2 (add_node e.1 g)) in *.
  rewrite !elem_of_edges. unfold add_edge. fold g'. cbn [adj]. split.
  - intros (nbrs & Hua & Hv).
    apply list_elem_of_fmap in Hua as (ua & Heq & Hua).
    assert (ua.1 = e'.1) as H1
      by (rewrite <- (add_successor_fst e.1 e.2 ua), <- Heq; done).
    assert (e'.2 ∈ (add_successor e.1 e.2 ua).2) as H2
      by (rewrite <- Heq; done).
    apply elem_of_add_successor in H2 as [H2|[H2 H3]].
    + right. exists ua.2. split; [|done]. rewrite <- H1. by destruct ua.
    + left. destruct e, e'. simpl in *. congruence.
  - intros [->|(nbrs & Hua & Hv)].
    + unfold nodes in Hsrc. apply list_elem_of_fmap in Hsrc as (ua & H1 & Hua).
      exists (add_successor e.1 e.2 ua).2. split.
      * apply list_elem_of_fmap. exists ua. split; [|done].
        rewrite H1 at 1. rewrite <- (add_successor_fst e.1 e.2 ua) at 1.
        by destruct (add_successor e.1 e.2 ua).
      * apply elem_of_add_successor. auto.
    + exists (add_successor e.1 e.2 (e'.1, nbrs)).2. split.
      * apply list_elem_of_fmap. exists (e'.1, nbrs). split; [|done].
        rewrite <- (add_successor_fst e.1 e.2 (e'.1, nbrs)) at 1.
        by destruct (add_successor e.1 e.2 (e'.1, nbrs)).
      * apply elem_of_add_successor. auto.
Qed.

Lemma elem_of_nodes_add_edge (e : nat * nat) (v : nat) (g : DiGraph) :
  v ∈ nodes (add_edge e g) <-> v = e.1 \/ v = e.2 \/ v ∈ nodes g.
Proof. rewrite nodes_add_edge, !elem_of_nodes_add_node. tauto. Qed.

Lemma elem_of_add_edges_from (es : list (nat * nat)) (g : DiGraph) :
  (forall e, e ∈ edges (add_edges_from es g) <-> e ∈ es \/ e ∈ edges g) /\
  (forall v, v ∈ nodes (add_edges_from es g) <->
     (exists e, e ∈ es /\ (v = e.1 \/ v = e.2)) \/ v ∈ nodes g).
Proof.
  revert g. induction es as [|e0 es IH]; intros g; simpl.
  - split.
    + intros e. rewrite elem_of_nil. tauto.
    + intros v. split; [auto|]. intros [(e & He & _)|H]; [|done].
      by apply elem_of_nil in He.
  - destruct (IH (add_edge e0 g)) as [IHe IHv]. split.
    + intros e. unfold add_edges_from in *. simpl.
      rewrite IHe, elem_of_edges_add_edge, elem_of_cons. tauto.
    + intros v. unfold add_edges_from in *. simpl.
      rewrite IHv, elem_of_nodes_add_edge. split.
      * intros [(e & He & Hv)|[H|[H|H]]]; auto.
        -- left. exists e. split; [by apply list_elem_of_further|done].
        -- left. exists e0. split; [apply list_elem_of_here|auto].
        -- left. exists e0. split; [apply list_elem_of_here|auto].
      * intros [(e & He & Hv)|H]; [|auto].
        apply elem_of_cons in He as [->|He]; [tauto|].
        left. exists e. auto.
Qed.

(** C8, as stated, fails: when the solver reports two arcs leaving node
    0 and none leaving the others, the notebook raises nothing and ends
    with the graph of exactly these two arcs, which the degree check
    rejects. *)
Lemma malformed_solution_is_accepted :
  exists log s,
    run remote_directions rogue_solver three_places [] = (log, Ok s) /\
    edges (G s) = [(0, 1); (0, 2)]%nat /\
    degrees_ok 3 (edges (G s)) = false.
Proof. eexists _, _. split; [reflexivity|]. split; reflexivity. Qed.

(** C8, amended: given a solution, the notebook puts the extracted pairs
    into a directed graph as they are: the edges of [G] are exactly the
    pairs of [get_edges], its nodes exactly their end points.  The edges
    are not walked and nothing is validated; no edge set makes this
    step raise. *)
Theorem graph_of_extracted_edges (s : notebook) (sol : solution_values)
    (log : list call) :
  solution s = Some sol ->
  let E := get_edges (items (binary_vars (model s)) sol) in
  exists s',
    cell_graph s log = (log, Ok s') /\
    (forall e, e ∈ edges (G s') <-> e ∈ E) /\
    (forall v, v ∈ nodes (G s') <-> exists e, e ∈ E /\ (v = e.1 \/ v = e.2)).
Proof.
  intros Hsol E. unfold cell_graph. rewrite Hsol. eexists.
  split; [reflexivity|]. cbn [G]. fold E.
  destruct (elem_of_add_edges_from E (mkDiGraph [])) as [He Hv]. split.
  - intros e. rewrite He. simpl. rewrite elem_of_nil. tauto.
  - intros v. rewrite Hv. simpl. rewrite elem_of_nil. tauto.
Qed.

Lemma graph_of_extracted_edges_witness :
  exists s',
    cell_graph (cell_solve rogue_solver remote_notebook) [] = ([], Ok s') /\
    (0, 2)%nat ∈ edges (G s').
Proof.
  destruct (graph_of_extracted_edges (cell_solve rogue_solver remote_notebook)
              (fun v => match v with x_ 0 1 | x_ 0 2 => 1%Q | _ => 0%Q end) [])
    as (s' & Hrun & He & _); [reflexivity|].
  exists s'. split; [exact Hrun|]. apply He.
  apply list_elem_of_In. vm_compute. right. left. reflexivity.
Defined.

(** ** The cost matrix after its construction *)

(** C9: the cells that declare the variables and add the constraints,
    run between the filling of the matrix and the sentinel cell, do not
    touch [cost]; once the sentinel cell has completed the matrix, the
    cells that build the objective, solve and extract leave every entry
    as it is: when the notebook completes, [cost] is the filled matrix
    with its diagonal set to the sentinel. *)
Theorem cost_is_not_mutated (directions : string -> string -> option Z)
    (solver : Model -> option solution_values) (location : list string) :
  (forall s, cost (cell_constraints location s) = cost s) /\
  (forall s, cost (cell_objective s) = cost s) /\
  (forall s, cost (cell_solve solver s) = cost s) /\
  (forall s log log' s', cell_graph s log = (log', Ok s') -> cost s' = cost s) /\
  (forall log log' final,
     run directions solver location log = (log', Ok final) ->
     exists logM M,
       fill_cost directions location log = (logM, Ok M) /\
       cost final = set_diagonal (length location) M).
Proof.
  split; [done|]. split; [done|]. split; [done|]. split.
  - intros s log log' s' Hrun. unfold cell_graph in Hrun.
    destruct (solution s); [|discriminate]. by injection Hrun as _ <-.
  - intros log log' final Hrun.
    unfold run, assemble, cell_cost, bind in Hrun.
    destruct (fill_cost directions location log) as [logM [M|e]];
      [|discriminate].
    exists logM, M. split; [done|].
    unfold ret, cell_graph in Hrun. cbn [solution cell_solve] in Hrun.
    destruct (solver _); [|discriminate]. by injection Hrun as _ <-.
Qed.

Lemma cost_is_not_mutated_witness :
  exists final M,
    (run remote_directions rogue_solver three_places []).2 = Ok final /\
    (fill_cost remote_directions three_places []).2 = Ok M /\
    cost final = set_diagonal 3 M.
Proof.
  destruct (cost_is_not_mutated remote_directions rogue_solver three_places)
    as (_ & _ & _ & _ & Hrun).
  destruct (Hrun [] _ _ eq_refl) as (logM & M & Hfill & Hcost).
  eexists _, M. split; [reflexivity|]. split; [by rewrite Hfill|exact Hcost].
Defined.

(** * Further properties of the notebook *)

(** ** The selected arcs of a feasible assignment *)

Lemma length_1_unique {A} (l : list A) (x y : A) :
  length l = 1%nat -> x ∈ l -> y ∈ l -> x = y.
Proof.
  destruct l as [|z [|z' l]]; try done. intros _ Hx Hy.
  apply list_elem_of_singleton in Hx, Hy. congruence.
Qed.

Section Successor.

Variables (n : nat) (a : assignment).
Hypothesis Hf : tsp_feasible n a.

Lemma successor_spec (i : nat) :
  (i < n)%nat -> selected a i (successor n a i) /\ (successor n a i < n)%nat.
Proof.
  intros Hi. destruct (feasible_degrees n a Hf i Hi) as [Hout _].
  unfold arcs_out in Hout. unfold successor.
  destruct (filter (fun j => selected a i j) (range n)) as [|j l] eqn:Hl;
    [done|]. simpl.
  assert (j ∈ filter (fun j => selected a i j) (range n)) as Hj
    by (rewrite Hl; apply list_elem_of_here).
  apply list_elem_of_filter in Hj as [Hsel Hj]. by apply elem_of_range in Hj.
Qed.

Lemma successor_unique (i j : nat) :
  (i < n)%nat -> (j < n)%nat -> selected a i j -> j = successor n a i.
Proof.
  intros Hi Hj Hsel. destruct (feasible_degrees n a Hf i Hi) as [Hout _].
  destruct (successor_spec i Hi) as [Hs Hlt].
  apply (length_1_unique _ _ _ Hout); apply list_elem_of_filter;
    (split; [done|by apply elem_of_range]).
Qed.

Lemma successor_inj (i i' : nat) :
  (i < n)%nat -> (i' < n)%nat -> successor n a i = successor n a i' -> i = i'.
Proof.
  intros Hi Hi' Heq.
  destruct (successor_spec i Hi) as [Hs Hlt].
  destruct (successor_spec i' Hi') as [Hs' _]. rewrite <- Heq in Hs'.
  destruct (feasible_degrees n a Hf _ Hlt) as [_ Hin].
  apply (length_1_unique _ _ _ Hin); apply list_elem_of_filter;
    (split; [done|by apply elem_of_range]).
Qed.

Lemma iter_successor_lt (t v : nat) :
  (v < n)%nat -> (Nat.iter t (successor n a) v < n)%nat.
Proof.
  intros Hv. induction t as [|t IH]; [done|]. simpl. by apply successor_spec.
Qed.

Lemma iter_successor_inj (t v w : nat) :
  (v < n)%nat -> (w < n)%nat ->
  Nat.iter t (successor n a) v = Nat.iter t (successor n a) w -> v = w.
Proof.
  intros Hv Hw. induction t as [|t IH]; [done|]. simpl. intros Heq.
  apply IH. apply successor_inj; [by apply iter_successor_lt..|done].
Qed.

Hypothesis Hno : forall i, (i < n)%nat -> a (x_ i i) = 0.

Lemma successor_ne (i : nat) : (i < n)%nat -> successor n a i ≠ i.
Proof.
  intros Hi Heq. destruct (successor_spec i Hi) as [Hs _].
  rewrite Heq in Hs. unfold selected in Hs. rewrite (Hno i Hi) in Hs. done.
Qed.

(** From an inner node the walk along the selected arcs climbs in rank
    until it enters node 0. *)
Lemma climb (v : nat) (k : nat) :
  inner n v ->
  (exists t, (t <= k)%nat /\ Nat.iter t (successor n a) v = 0%nat /\
             forall t', (t' < t)%nat -> Nat.iter t' (successor n a) v ≠ 0%nat) \/
  (inner n (Nat.iter k (successor n a) v) /\
   a (u_ v) + Z.of_nat k <= a (u_ (Nat.iter k (successor n a) v)) /\
   forall t', (t' < k)%nat -> Nat.iter t' (successor n a) v ≠ 0%nat).
Proof.
  intros Hv. induction k as [|k IH].
  - right. simpl. split; [done|]. split; [lia|]. intros t' Ht'. lia.
  - destruct IH as [(t & Ht & H0 & Hmin)|(Hin & Hrank & Hmin)].
    + left. exists t. split; [lia|done].
    + set (w := Nat.iter k (successor n a) v) in *.
      destruct Hin as [Hw0 Hw].
      destruct (successor_spec w Hw) as [Hsel Hlt].
      assert (forall t', (t' < S k)%nat ->
                Nat.iter t' (successor n a) v ≠ 0%nat) as Hmin'.
      { intros t' Ht'. destruct (decide (t' = k)) as [->|?]; [done|].
        apply Hmin. lia. }
      destruct (decide (successor n a w = 0%nat)) as [Hz|Hz].
      * left. exists (S k). split; [lia|]. split; [exact Hz|exact Hmin'].
      * right. simpl. fold w. split; [done|]. split; [|exact Hmin'].
        pose proof (tf_mtz n a Hf w (successor n a w) Hw Hlt Hw0 Hz
                      (not_eq_sym (successor_ne w Hw))) as Hm.
        unfold selected in Hsel. rewrite Hsel in Hm. lia.
Qed.

Lemma reaches_0 (v : nat) :
  inner n v ->
  exists t, (1 <= t)%nat /\ Nat.iter t (successor n a) v = 0%nat /\
            forall t', (t' < t)%nat -> Nat.iter t' (successor n a) v ≠ 0%nat.
Proof.
  intros Hv. destruct (climb v n Hv) as [(t & Ht & H0 & Hmin)|(Hin & Hrank & _)].
  - exists t. split; [|done]. destruct t; [|lia]. simpl in H0. by destruct Hv.
  - destruct Hv as [_ Hv], Hin as [_ Hin].
    pose proof (tf_lb n a Hf v Hv). pose proof (tf_ub n a Hf _ Hin). lia.
Qed.

Lemma returns_to_0 :
  (0 < n)%nat ->
  exists m, (1 <= m)%nat /\ Nat.iter m (successor n a) 0%nat = 0%nat /\
            forall t, (0 < t < m)%nat -> Nat.iter t (successor n a) 0%nat ≠ 0%nat.
Proof.
  intros Hn.
  assert (inner n (successor n a 0)) as Hw.
  { split; [by apply successor_ne|by apply successor_spec]. }
  destruct (reaches_0 _ Hw) as (t & Ht & H0 & Hmin).
  exists (S t). split; [lia|]. split; [by rewrite Nat.iter_succ_r|].
  intros t' Ht'. destruct t' as [|t']; [lia|].
  rewrite Nat.iter_succ_r. apply Hmin. lia.
Qed.

Section Walk.

Variable m : nat.
Hypothesis Hn : (0 < n)%nat.
Hypothesis Hm : (1 <= m)%nat.
Hypothesis Hback : Nat.iter m (successor n a) 0%nat = 0%nat.
Hypothesis Hfirst :
  forall t, (0 < t < m)%nat -> Nat.iter t (successor n a) 0%nat ≠ 0%nat.

Lemma walk_lookup (t : nat) :
  (t < m)%nat ->
  walk_from_0 n a m !! t = Some (Nat.iter t (successor n a) 0%nat).
Proof.
  intros Ht. unfold walk_from_0, range.
  by rewrite list_lookup_fmap, lookup_seq_lt.
Qed.

Lemma walk_length : length (walk_from_0 n a m) = m.
Proof. unfold walk_from_0, range. by rewrite length_fmap, length_seq. Qed.

Lemma walk_times_inj (t t' : nat) :
  (t <= t')%nat -> (t' < m)%nat ->
  Nat.iter t (successor n a) 0%nat = Nat.iter t' (successor n a) 0%nat ->
  t = t'.
Proof.
  intros Hle Hlt Heq. replace t' with (t + (t' - t))%nat in Heq by lia.
  rewrite Nat.iter_add in Heq.
  apply iter_successor_inj in Heq; [|done|by apply iter_successor_lt].
  destruct (decide (t' - t = 0)%nat) as [?|Hd]; [lia|].
  exfalso. apply (Hfirst (t' - t)%nat); [lia|done].
Qed.

Lemma walk_NoDup : NoDup (walk_from_0 n a m).
Proof.
  apply NoDup_alt. intros t t' v Ht Ht'.
  pose proof (lookup_lt_Some _ _ _ Ht) as Hlt.
  pose proof (lookup_lt_Some _ _ _ Ht') as Hlt'.
  rewrite walk_length in Hlt, Hlt'.
  rewrite walk_lookup in Ht, Ht' by done.
  destruct (decide (t <= t')%nat).
  - apply walk_times_inj; [done..|congruence].
  - symmetry. apply walk_times_inj; [lia|done|congruence].
Qed.

Lemma walk_covers (v : nat) : (v < n)%nat -> v ∈ walk_from_0 n a m.
Proof.
  intros Hv. destruct (decide (v = 0%nat)) as [->|Hv0].
  - apply (list_elem_of_lookup_2 _ 0%nat). by rewrite walk_lookup.
  - destruct (reaches_0 v (conj Hv0 Hv)) as (k & Hk & H0 & Hmin).
    destruct (decide (k <= m)%nat) as [Hkm|Hkm].
    + apply (list_elem_of_lookup_2 _ (m - k)%nat).
      rewrite walk_lookup by lia. f_equal.
      apply (iter_successor_inj k); [by apply iter_successor_lt|done|].
      rewrite <- Nat.iter_add. replace (k + (m - k))%nat with m by lia.
      congruence.
    + exfalso. apply (Hmin (k - m)%nat); [lia|].
      apply (iter_successor_inj m); [by apply iter_successor_lt|done|].
      rewrite <- Nat.iter_add. replace (m + (k - m))%nat with k by lia.
      congruence.
Qed.

Lemma walk_hamiltonian : hamiltonian n (walk_from_0 n a m).
Proof.
  apply NoDup_Permutation; [apply walk_NoDup|apply NoDup_seq|].
  intros v. rewrite elem_of_range. split; [|apply walk_covers].
  intros Hv. apply list_elem_of_fmap in Hv as (t & -> & _).
  by apply iter_successor_lt.
Qed.

Lemma walk_succ_of (i : nat) :
  (i < n)%nat -> succ_of (walk_from_0 n a m) i = successor n a i.
Proof.
  intros Hi. pose proof (walk_covers i Hi) as Hin.
  apply list_elem_of_lookup_1 in Hin as [t Ht].
  pose proof (lookup_lt_Some _ _ _ Ht) as Hlt. rewrite walk_length in Hlt.
  unfold succ_of. rewrite (index_of_unique i _ t walk_NoDup Ht), walk_length.
  rewrite walk_lookup in Ht by done. injection Ht as <-.
  unfold next_index. destruct (decide (S t = m)) as [Hlast|Hlast].
  - rewrite (nth_lookup_Some _ _ _ _ (walk_lookup 0 Hm)). simpl.
    rewrite <- Hback at 1. by rewrite <- Hlast.
  - rewrite (nth_lookup_Some _ _ _ _ (walk_lookup (S t) ltac:(lia))). done.
Qed.

End Walk.

End Successor.

Lemma tour_of_feasible (n : nat) (a : assignment) :
  feasible (build_model n) a ->
  (forall i, (i < n)%nat -> a (x_ i i) = 0) ->
  exists tour,
    hamiltonian n tour /\
    forall i j, (i < n)%nat -> (j < n)%nat ->
      (selected a i j <-> succ_of tour i = j).
Proof.
  intros Hf Hno. apply feasible_build_model in Hf.
  destruct (decide (n = 0%nat)) as [->|Hn].
  - exists []. split; [unfold hamiltonian; reflexivity|]. intros i j Hi. lia.
  - destruct (returns_to_0 n a Hf Hno ltac:(lia)) as (m & Hm & Hback & Hfirst).
    exists (walk_from_0 n a m). split.
    + apply walk_hamiltonian; try done. lia.
    + intros i j Hi Hj.
      rewrite (walk_succ_of n a Hf Hno m) by (done || lia).
      split; [intros Hsel; symmetry; by apply successor_unique|].
      intros <-. by apply successor_spec.
Qed.

(** ** The objective on tours *)

Lemma sumQ_ext (f g : nat -> Q) (l : list nat) :
  (forall i, i ∈ l -> (f i == g i)%Q) -> (sumQ f l == sumQ g l)%Q.
Proof.
  induction l as [|i l IH]; intros H; [reflexivity|]. simpl.
  rewrite (H i) by apply list_elem_of_here.
  rewrite IH; [reflexivity|]. intros k Hk. apply H.
  by apply list_elem_of_further.
Qed.

Lemma sumQ_le (f g : nat -> Q) (l : list nat) :
  (forall i, i ∈ l -> (f i <= g i)%Q) -> (sumQ f l <= sumQ g l)%Q.
Proof.
  induction l as [|i l IH]; intros H; [apply Qle_refl|]. simpl.
  apply Qplus_le_compat; [apply H, list_elem_of_here|].
  apply IH. intros k Hk. apply H. by apply list_elem_of_further.
Qed.

Lemma value_concat_rows (a : assignment) (row : nat -> objective)
    (l : list nat) :
  (value a (concat (row <$> l)) == sumQ (fun i => value a (row i)) l)%Q.
Proof.
  induction l as [|i l IH]; [reflexivity|].
  rewrite fmap_cons. cbn [concat sumQ foldr]. rewrite value_app.
  fold (sumQ (fun i => value a (row i)) l). by rewrite IH.
Qed.

Lemma value_ext (a b : assignment) (o : objective) :
  (forall t, t ∈ o -> a t.2 = b t.2) -> value a o = value b o.
Proof.
  induction o as [|t o IH]; intros H; [done|].
  cbn [value foldr]. fold (value a o). fold (value b o).
  rewrite (H t) by apply list_elem_of_here.
  rewrite IH; [done|]. intros t' Ht'. apply H. by apply list_elem_of_further.
Qed.

Lemma value_row_indicator (a : assignment) (M : matrix) (i k s m : nat) :
  (forall j, a (x_ i j) = if decide (k = j) then 1 else 0) ->
  (value a ((fun j => (entry M i j, x_ i j)) <$> seq s m) ==
   if decide (s <= k < s + m)%nat then entry M i k else 0)%Q.
Proof.
  intros Ha. revert s. induction m as [|m IH]; intros s.
  - simpl. destruct (decide _); [lia|reflexivity].
  - cbn [seq fmap list_fmap value foldr fst snd].
    change (foldr _ _ ?o) with (value a o). 
    change (list_fmap _ _ ?f ?l) with (f <$> l).
    rewrite IH, Ha.
    destruct (decide (k = s)) as [->|Hks].
    + destruct (decide (S s <= s < S s + m)%nat); [lia|].
      destruct (decide (s <= s < s + S m)%nat); [|lia].
      change (inject_Z 1) with 1%Q. ring.
    + change (inject_Z 0) with 0%Q.
      destruct (decide (S s <= k < S s + m)%nat),
        (decide (s <= k < s + S m)%nat); try lia; ring.
Qed.

Lemma tour_value (n : nat) (M : matrix) (tour : list nat) :
  shape n M -> hamiltonian n tour ->
  (value (tour_assignment tour) (loss (build_model n) M) ==
   tour_cost n M tour)%Q.
Proof.
  intros HM Ht. rewrite loss_full by done.
  unfold full_objective, tour_cost. rewrite bind_fmap_concat.
  rewrite value_concat_rows. apply sumQ_ext. intros i Hi.
  apply elem_of_range in Hi. rewrite bind_ret_fmap. unfold range.
  rewrite (value_row_indicator _ M i (succ_of tour i)) by done.
  pose proof (succ_of_lt n tour Ht i Hi).
  destruct (decide _); [reflexivity|lia].
Qed.

(** A tour through two nodes or more pays no diagonal entry. *)
Lemma tour_cost_set_diagonal (n : nat) (M : matrix) (tour : list nat) :
  shape n M -> hamiltonian n tour -> (2 <= n)%nat ->
  (tour_cost n (set_diagonal n M) tour == tour_cost n M tour)%Q.
Proof.
  intros HM Ht Hn. apply sumQ_ext. intros i Hi. apply elem_of_range in Hi.
  rewrite set_diagonal_off; [reflexivity|done|].
  apply not_eq_sym. by apply (succ_of_ne n).
Qed.

(** ** Optimal solutions are cheapest tours *)

Lemma tour_below_sentinel (n : nat) (M : matrix) (tour : list nat) :
  shape n M -> cheap n M -> (2 <= n)%nat -> hamiltonian n tour ->
  (value (tour_assignment tour) (loss (build_model n) (set_diagonal n M)) <
   sentinel)%Q.
Proof.
  intros HM [_ (c & Hc & Hlt)] Hn Ht.
  pose proof (tour_value_le n M c tour HM Ht Hn Hc). lra.
Qed.

Lemma cheaper_has_no_self_arc (n : nat) (M : matrix) (a : assignment) :
  shape n M -> cheap n M ->
  feasible (build_model n) a ->
  (value a (loss (build_model n) (set_diagonal n M)) < sentinel)%Q ->
  forall i, (i < n)%nat -> a (x_ i i) = 0.
Proof.
  intros HM [Hpos _] Ha Hlt i Hi.
  pose proof Ha as Hf. apply feasible_build_model in Hf.
  destruct (tf_binary n a Hf i i Hi Hi) as [H0|H1]; [done|].
  pose proof (self_arc_costs_sentinel n M a i HM Hpos Ha Hi H1). lra.
Qed.

Lemma feasible_tour_value (n : nat) (M : matrix) (a : assignment)
    (tour : list nat) :
  shape n M -> feasible (build_model n) a -> hamiltonian n tour ->
  (forall i j, (i < n)%nat -> (j < n)%nat ->
     (selected a i j <-> succ_of tour i = j)) ->
  (value a (loss (build_model n) M) == tour_cost n M tour)%Q.
Proof.
  intros HM Ha Ht Harcs. rewrite <- (tour_value n M tour HM Ht).
  rewrite (value_ext a (tour_assignment tour)); [reflexivity|].
  intros t Hin. rewrite loss_full in Hin by done.
  apply elem_of_full_objective in Hin as (i & j & Hi & Hj & ->). simpl.
  apply feasible_build_model in Ha.
  specialize (Harcs i j Hi Hj). unfold selected in Harcs.
  destruct (decide (succ_of tour i = j)) as [Hs|Hs].
  - by apply Harcs.
  - destruct (tf_binary n a Ha i j Hi Hj) as [H0|H1]; [done|].
    by apply Harcs in H1.
Qed.

Lemma cheaper_spec (n : nat) (M : matrix) (t1 t2 : list nat) :
  (cheaper n M t1 t2 = t1 /\ (tour_cost n M t1 <= tour_cost n M t2)%Q) \/
  (cheaper n M t1 t2 = t2 /\ (tour_cost n M t2 < tour_cost n M t1)%Q).
Proof.
  unfold cheaper. destruct (Qle_bool _ _) eqn:Hle.
  - left. split; [done|]. by apply Qle_bool_iff.
  - right. split; [done|]. apply Qnot_le_lt. rewrite <- Qle_bool_iff, Hle. done.
Qed.

Lemma cheapest_spec (n : nat) (M : matrix) (t0 : list nat)
    (tours : list (list nat)) :
  let t := cheapest n M t0 tours in
  (t = t0 \/ t ∈ tours) /\
  (tour_cost n M t <= tour_cost n M t0)%Q /\
  forall t', t' ∈ tours -> (tour_cost n M t <= tour_cost n M t')%Q.
Proof.
  induction tours as [|t1 tours IH]; simpl.
  - split; [by left|]. split; [apply Qle_refl|].
    intros t' Ht'. by apply elem_of_nil in Ht'.
  - destruct IH as (Hin & H0 & Hall). fold (cheapest n M t0 tours).
    destruct (cheaper_spec n M t1 (cheapest n M t0 tours)) as [[-> Hle]|[-> Hlt]].
    + split; [right; apply list_elem_of_here|].
      split; [lra|]. intros t' Ht'. apply elem_of_cons in Ht' as [->|Ht'].
      * apply Qle_refl.
      * specialize (Hall t' Ht'). lra.
    + split.
      * destruct Hin as [Hin|Hin]; [by left|right].
        by apply list_elem_of_further.
      * split; [done|]. intros t' Ht'.
        apply elem_of_cons in Ht' as [->|Ht']; [lra|by apply Hall].
Qed.

Lemma cheapest_tour_spec (n : nat) (M : matrix) :
  hamiltonian n (cheapest_tour n M) /\
  forall tour, hamiltonian n tour ->
    (tour_cost n M (cheapest_tour n M) <= tour_cost n M tour)%Q.
Proof.
  destruct (cheapest_spec n M (range n) (permutations (range n)))
    as (Hin & _ & Hall). fold (cheapest_tour n M) in Hin, Hall. split.
  - destruct Hin as [->|Hin]; [unfold hamiltonian; reflexivity|].
    unfold hamiltonian. symmetry. by apply permutations_Permutation.
  - intros tour Ht. apply Hall, permutations_Permutation.
    unfold hamiltonian in Ht. by symmetry.
Qed.

Lemma cheapest_tour_optimal (n : nat) (M : matrix) :
  shape n M -> cheap n M -> (2 <= n)%nat ->
  optimal (build_model n) (loss (build_model n) (set_diagonal n M))
    (tour_assignment (cheapest_tour n M)).
Proof.
  intros HM Hcheap Hn.
  destruct (cheapest_tour_spec n M) as [Hbest Hall].
  pose proof (set_diagonal_shape n M HM) as HC.
  split; [by apply feasible_build_model, tour_feasible|].
  intros b Hb.
  rewrite (tour_value n _ _ HC Hbest), (tour_cost_set_diagonal n M _ HM Hbest Hn).
  destruct (Qlt_le_dec (value b (loss (build_model n) (set_diagonal n M)))
              sentinel) as [Hlt|Hge].
  - pose proof (cheaper_has_no_self_arc n M b HM Hcheap Hb Hlt) as Hno.
    destruct (tour_of_feasible n b Hb Hno)
      as (tour & Ht & Harcs).
    rewrite (feasible_tour_value n _ b tour HC Hb Ht Harcs).
    rewrite (tour_cost_set_diagonal n M _ HM Ht Hn). by apply Hall.
  - pose proof (tour_below_sentinel n M _ HM Hcheap Hn Hbest) as Hlt.
    rewrite (tour_value n _ _ HC Hbest) in Hlt.
    rewrite (tour_cost_set_diagonal n M _ HM Hbest Hn) in Hlt. lra.
Qed.

(** ** The size of the model *)

Lemma length_bind_const {A B} (f : A -> list B) (l : list A) (c : nat) :
  (forall a, a ∈ l -> length (f a) = c) -> length (l ≫= f) = (length l * c)%nat.
Proof.
  induction l as [|a l IH]; intros H; [done|].
  rewrite bind_cons, length_app, (H a) by apply list_elem_of_here.
  rewrite IH by (intros b Hb; apply H; by apply list_elem_of_further).
  simpl. lia.
Qed.

Lemma exclude_absent (A : list nat) (i : nat) : i ∉ A -> exclude A i = A.
Proof.
  unfold exclude. induction A as [|a A IH]; intros Hi; [done|].
  apply not_elem_of_cons in Hi as [Hia HiA]. rewrite filter_cons.
  destruct (decide (a ≠ i)) as [_|Heq]; [f_equal; by apply IH|].
  destruct (decide (a = i)); [congruence|tauto].
Qed.

Lemma length_exclude (A : list nat) (i : nat) :
  NoDup A -> i ∈ A -> length (exclude A i) = (length A - 1)%nat.
Proof.
  induction 1 as [|a A Ha Hnd IH]; intros Hi.
  - by apply elem_of_nil in Hi.
  - unfold exclude in *. rewrite filter_cons.
    destruct (decide (a ≠ i)) as [Hne|Heq].
    + apply elem_of_cons in Hi as [->|Hi]; [done|].
      rewrite length_cons, IH by done. simpl.
      apply list_elem_of_lookup_1 in Hi as [k Hk].
      apply lookup_lt_Some in Hk. lia.
    + assert (a = i) as -> by (destruct (decide (a = i)); [done|tauto]).
      simpl. rewrite Nat.sub_0_r. f_equal. by apply exclude_absent.
Qed.

Lemma NoDup_exclude (A : list nat) (i : nat) : NoDup A -> NoDup (exclude A i).
Proof. apply NoDup_filter. Qed.


Lemma length_inner_nodes (n : nat) :
  length (exclude (range n) 0) = (n - 1)%nat.
Proof.
  destruct n as [|n]; [done|].
  rewrite length_exclude; [unfold range; by rewrite length_seq|apply NoDup_seq|].
  apply elem_of_range. lia.
Qed.

Lemma length_c_1_13 (n : nat) :
  length (c_1_13 (Z.of_nat n) (range n)) = ((n - 1) * (n - 2))%nat.
Proof.
  unfold c_1_13. rewrite (length_bind_const _ _ (n - 2)).
  - by rewrite length_inner_nodes.
  - intros i Hi. rewrite bind_ret_fmap, length_fmap.
    change (filter (fun k => k ≠ i) ?l) with (exclude l i).
    rewrite length_exclude; [rewrite length_inner_nodes; lia| |done].
    apply NoDup_exclude, NoDup_seq.
Qed.

(** ** The first failing lookup *)

Lemma for_each_fails_at {A S} (l1 l2 : list A) (a : A)
    (body : A -> S -> ext S) (c : A -> list call) (g : A -> S -> S)
    (c' : list call) (e : exn) :
  (forall b, b ∈ l1 -> forall s log, body b s log = (log ++ c b, Ok (g b s))) ->
  (forall s log, body a s log = (log ++ c', Raise e)) ->
  forall s log,
    for_each (l1 ++ a :: l2) body s log =
    (log ++ concat (c <$> l1) ++ c', Raise e).
Proof.
  intros Hok Hfail. induction l1 as [|b l1 IH]; intros s log.
  - cbn [app for_each fmap list_fmap concat]. unfold bind. by rewrite Hfail.
  - cbn [app for_each]. unfold bind at 1.
    rewrite (Hok b (list_elem_of_here _ _)).
    rewrite IH by (intros b' Hb'; apply Hok; by apply list_elem_of_further).
    rewrite fmap_cons. cbn [concat]. by rewrite <- !app_assoc.
Qed.

Lemma range_split (n j : nat) :
  (j < n)%nat -> range n = range j ++ j :: seq (S j) (n - S j).
Proof.
  intros Hj. unfold range. replace n with (j + S (n - S j))%nat at 1 by lia.
  by rewrite seq_app.
Qed.

Lemma fill_row_fails_at (directions : string -> string -> option Z)
    (location : list string) (i j : nat) (M : matrix) (log : list call) :
  let n := length location in
  (i < n)%nat -> (j < n)%nat ->
  (forall j', (j' < j)%nat ->
     is_Some (directions (place location i) (place location j'))) ->
  directions (place location i) (place location j) = None ->
  fill_row directions location n i M log =
  (log ++ ((fun j' => (place location i, place location j')) <$> range (S j)),
   Raise (LookupFailed (place location i) (place location j))).
Proof.
  intros n Hi Hj Hok Hnone. unfold fill_row. rewrite (range_split n j Hj).
  rewrite (for_each_fails_at _ _ _ _
             (fun j' => [(place location i, place location j')])
             (fun j' M => set M i j' (hours directions location i j'))
             [(place location i, place location j)]
             (LookupFailed (place location i) (place location j))).
  - f_equal. f_equal. rewrite <- bind_fmap_concat, bind_ret_fmap.
    unfold range. replace (S j) with (j + 1)%nat by lia.
    by rewrite seq_app, fmap_app.
  - intros j' Hj' M' log'. apply elem_of_range in Hj'.
    apply fill_entry_ok; [done|lia|by apply Hok].
  - intros M' log'. by apply fill_entry_raises.
Qed.

Lemma length_calls_until (location : list string) (i j : nat) :
  length (calls_until location i j) = (i * length location + j + 1)%nat.
Proof.
  unfold calls_until.
  rewrite length_app, length_fmap, (length_bind_const _ _ (length location)).
  - unfold range. rewrite !length_seq. lia.
  - intros i' _. rewrite bind_ret_fmap, length_fmap. unfold range.
    by rewrite length_seq.
Qed.

(** ** Extraction from an integral solution *)

Lemma items_app (l1 l2 : list (nat * nat)) (sol : solution_values) :
  items (l1 ++ l2) sol = items l1 sol ++ items l2 sol.
Proof. unfold items. apply map_app. Qed.

Lemma get_edges_app (x y : list ((nat * nat) * Q)) :
  get_edges (x ++ y) = get_edges x ++ get_edges y.
Proof. unfold get_edges. apply bind_app. Qed.

Lemma get_edges_rows (sol : solution_values) (lbl rows : list nat) :
  get_edges (items (i ← rows; j ← lbl; [(i, j)]) sol) =
  i ← rows; get_edges (items ((fun j => (i, j)) <$> lbl) sol).
Proof.
  induction rows as [|i rows IH]; [done|].
  rewrite !bind_cons, items_app, get_edges_app, IH. by rewrite bind_ret_fmap.
Qed.

Lemma Qeq_bool_integral (z : Z) : Qeq_bool (inject_Z z) 1 = true <-> z = 1.
Proof. rewrite Qeq_bool_iff. unfold Qeq. simpl. lia. Qed.

Lemma get_edges_row (a : assignment) (i : nat) (lbl : list nat) :
  get_edges (items ((fun j => (i, j)) <$> lbl) (integral a)) =
  (fun j => (i, j)) <$> filter (fun j => selected a i j) lbl.
Proof.
  induction lbl as [|j lbl IH]; [done|].
  rewrite fmap_cons, filter_cons. unfold items in *. cbn [map].
  unfold get_edges in *. rewrite bind_cons, IH. cbn [fst snd].
  unfold integral at 1, selected at 2.
  destruct (Qeq_bool (inject_Z (a (x_ i j))) 1) eqn:Hq.
  - apply Qeq_bool_integral in Hq. destruct (decide _); [done|tauto].
  - destruct (decide (a (x_ i j) = 1)) as [H1|_]; [|done].
    apply Qeq_bool_integral in H1. congruence.
Qed.

Lemma selected_row (n : nat) (a : assignment) (i : nat) :
  tsp_feasible n a -> (i < n)%nat ->
  filter (fun j => selected a i j) (range n) = [successor n a i].
Proof.
  intros Hf Hi. destruct (feasible_degrees n a Hf i Hi) as [Hout _].
  unfold arcs_out in Hout. unfold successor.
  by destruct (filter _ _) as [|j [|j' l]].
Qed.

Lemma get_edges_integral (n : nat) (a : assignment) :
  tsp_feasible n a ->
  get_edges (items (x_keys (range n)) (integral a)) = successor_arcs n a.
Proof.
  intros Hf. unfold x_keys, successor_arcs. rewrite get_edges_rows.
  rewrite <- bind_ret_fmap. apply Forall_bind_ext, Forall_forall.
  intros i Hi. apply elem_of_range in Hi.
  by rewrite get_edges_row, selected_row.
Qed.

Lemma NoDup_successor_arcs (n : nat) (a : assignment) :
  NoDup (successor_arcs n a).
Proof.
  unfold successor_arcs. apply NoDup_fmap_2_strong; [|apply NoDup_seq].
  intros i i' _ _ Heq. by injection Heq.
Qed.

Lemma elem_of_successor_arcs (n : nat) (a : assignment) (e : nat * nat) :
  e ∈ successor_arcs n a <-> (e.1 < n)%nat /\ e.2 = successor n a e.1.
Proof.
  unfold successor_arcs. rewrite list_elem_of_fmap. split.
  - intros (i & -> & Hi). by apply elem_of_range in Hi.
  - intros [Hi He]. exists e.1. split; [|by apply elem_of_range].
    destruct e as [i j]. simpl in *. by subst.
Qed.

Lemma length_1_of_unique {A} (l : list A) (x : A) :
  NoDup l -> x ∈ l -> (forall y, y ∈ l -> y = x) -> length l = 1%nat.
Proof.
  intros Hnd Hx Hall.
  destruct l as [|y [|z l]]; [by apply elem_of_nil in Hx|done|].
  exfalso. apply NoDup_cons in Hnd as [Hy _]. apply Hy.
  rewrite (Hall y) by apply list_elem_of_here.
  rewrite <- (Hall z) by (apply list_elem_of_further, list_elem_of_here).
  apply list_elem_of_here.
Qed.

Lemma successor_onto (n : nat) (a : assignment) (v : nat) :
  tsp_feasible n a -> (v < n)%nat ->
  exists p, (p < n)%nat /\ successor n a p = v.
Proof.
  intros Hf Hv. destruct (feasible_degrees n a Hf v Hv) as [_ Hin].
  unfold arcs_in in Hin.
  destruct (filter (fun i => selected a i v) (range n)) as [|p l] eqn:Hl;
    [done|].
  assert (p ∈ filter (fun i => selected a i v) (range n)) as Hp
    by (rewrite Hl; apply list_elem_of_here).
  apply list_elem_of_filter in Hp as [Hsel Hp]. apply elem_of_range in Hp.
  exists p. split; [done|]. symmetry. by apply (successor_unique n a Hf).
Qed.

Lemma degrees_ok_successor_arcs (n : nat) (a : assignment) :
  tsp_feasible n a -> degrees_ok n (successor_arcs n a) = true.
Proof.
  intros Hf. unfold degrees_ok. apply andb_true_iff. split.
  - apply Nat.eqb_eq. unfold successor_arcs, range.
    by rewrite length_fmap, length_seq.
  - apply forallb_forall. intros v Hv. apply in_seq in Hv.
    apply andb_true_iff. split; apply Nat.eqb_eq.
    + apply (length_1_of_unique _ (v, successor n a v)).
      * apply NoDup_filter, NoDup_successor_arcs.
      * apply list_elem_of_filter. split; [done|].
        apply elem_of_successor_arcs. simpl. split; [lia|done].
      * intros [i j] Hy. apply list_elem_of_filter in Hy as [Hi Hy].
        apply elem_of_successor_arcs in Hy as [_ Hj]. simpl in *. by subst.
    + destruct (successor_onto n a v Hf ltac:(lia)) as (p & Hp & Hs).
      apply (length_1_of_unique _ (p, v)).
      * apply NoDup_filter, NoDup_successor_arcs.
      * apply list_elem_of_filter. split; [done|].
        apply elem_of_successor_arcs. simpl. by split.
      * intros [i j] Hy. apply list_elem_of_filter in Hy as [Hi Hy].
        apply elem_of_successor_arcs in Hy as [Hlt Hj]. simpl in Hi, Hlt, Hj.
        assert (i = p) as ->
          by (apply (successor_inj n a Hf); [done..|congruence]).
        congruence.
Qed.

(** ** The digraph *)

Lemma elem_of_see {A} `{EqDecision A} (xs : list A) (x y : A) :
  y ∈ see xs x <-> y ∈ xs \/ y = x.
Proof.
  unfold see. destruct (decide _) as [Hin|Hin].
  - split; [auto|]. intros [H| ->]; done.
  - rewrite elem_of_app, list_elem_of_singleton. tauto.
Qed.

Lemma NoDup_see {A} `{EqDecision A} (xs : list A) (x : A) :
  NoDup xs -> NoDup (see xs x).
Proof.
  intros Hnd. unfold see. destruct (decide _) as [Hin|Hin]; [done|].
  apply NoDup_app. split; [done|]. split; [|apply NoDup_singleton].
  intros w Hw Hw'. apply list_elem_of_singleton in Hw'. by subst.
Qed.

Lemma fold_see_spec {A} `{EqDecision A} (xs acc : list A) :
  (NoDup acc -> NoDup (fold_left see xs acc)) /\
  (forall y, y ∈ fold_left see xs acc <-> y ∈ acc \/ y ∈ xs).
Proof.
  revert acc. induction xs as [|x xs IH]; intros acc; simpl.
  - split; [done|]. intros y. rewrite elem_of_nil. tauto.
  - destruct (IH (see acc x)) as [IHn IHe]. split.
    + intros Hnd. by apply IHn, NoDup_see.
    + intros y. rewrite IHe, elem_of_see, elem_of_cons. tauto.
Qed.

Lemma NoDup_seen {A} `{EqDecision A} (xs : list A) : NoDup (seen xs).
Proof. apply fold_see_spec. constructor. Qed.

Lemma elem_of_seen {A} `{EqDecision A} (xs : list A) (y : A) :
  y ∈ seen xs <-> y ∈ xs.
Proof.
  unfold seen. rewrite (proj2 (fold_see_spec xs [])), elem_of_nil. tauto.
Qed.

Lemma fold_see_NoDup {A} `{EqDecision A} (xs acc : list A) :
  NoDup (acc ++ xs) -> fold_left see xs acc = acc ++ xs.
Proof.
  revert acc. induction xs as [|x xs IH]; intros acc Hnd; simpl.
  - by rewrite app_nil_r.
  - assert (see acc x = acc ++ [x]) as ->.
    { unfold see. destruct (decide _) as [Hin|Hin]; [|done].
      apply NoDup_app in Hnd as (_ & Hdis & _). exfalso.
      apply (Hdis x Hin), list_elem_of_here. }
    rewrite IH; rewrite <- app_assoc; done.
Qed.

Lemma seen_NoDup {A} `{EqDecision A} (xs : list A) : NoDup xs -> seen xs = xs.
Proof. intros Hnd. unfold seen. by rewrite fold_see_NoDup. Qed.

Lemma nodes_add_node (v : nat) (g : DiGraph) :
  nodes (add_node v g) = see (nodes g) v.
Proof.
  unfold add_node, see. destruct (decide _); [done|].
  unfold nodes. cbn [adj]. by rewrite fmap_app.
Qed.

Lemma nodes_add_edges_from (es : list (nat * nat)) (g : DiGraph) :
  nodes (add_edges_from es g) = fold_left see (end_points es) (nodes g).
Proof.
  revert g. induction es as [|e es IH]; intros g; [done|].
  unfold add_edges_from in *. simpl. rewrite IH.
  by rewrite nodes_add_edge, !nodes_add_node.
Qed.

Lemma targets_of_source (u : nat) (es : list (nat * nat)) :
  (v ← (filter (fun e => e.1 = u) es).*2; [(u, v)]) =
  filter (fun e => e.1 = u) es.
Proof.
  induction es as [|[i j] es IH]; [done|].
  rewrite filter_cons. cbn [fst].
  destruct (decide (i = u)) as [->|Hi]; [|done].
  by rewrite fmap_cons, bind_cons, IH.
Qed.

Lemma edges_built_from (acc : list (nat * nat)) (g : DiGraph) :
  built_from acc g -> edges g = grouped (nodes g) acc.
Proof.
  intros (_ & _ & _ & Hadj). unfold edges, grouped, nodes.
  rewrite list_fmap_bind. apply Forall_bind_ext, Forall_forall.
  intros [u nbrs] Hin. simpl. rewrite (Hadj u nbrs Hin).
  apply targets_of_source.
Qed.

Lemma built_from_nil : built_from [] (mkDiGraph []).
Proof.
  split; [constructor|]. split; [constructor|]. split.
  - intros e He. by apply elem_of_nil in He.
  - intros u nbrs Hin. by apply elem_of_nil in Hin.
Qed.

Lemma built_from_add_node (acc : list (nat * nat)) (v : nat) (g : DiGraph) :
  built_from acc g -> built_from acc (add_node v g).
Proof.
  intros (Hacc & Hnd & Hends & Hadj).
  split; [done|]. split; [rewrite nodes_add_node; by apply NoDup_see|].
  split.
  - intros e He. rewrite !elem_of_nodes_add_node.
    destruct (Hends e He). auto.
  - unfold add_node. destruct (decide _) as [Hin|Hin]; [done|].
    cbn [adj]. intros u nbrs Hu. apply elem_of_app in Hu as [Hu|Hu]; [auto|].
    apply list_elem_of_singleton in Hu. injection Hu as -> ->.
    destruct (filter _ acc) as [|e l] eqn:Hl; [done|]. exfalso.
    assert (e ∈ filter (fun e => e.1 = v) acc) as He
      by (rewrite Hl; apply list_elem_of_here).
    apply list_elem_of_filter in He as [<- He]. by apply Hin, Hends.
Qed.

Lemma add_edge_again (acc : list (nat * nat)) (e : nat * nat) (g : DiGraph) :
  built_from acc g -> e ∈ acc -> add_edge e g = g.
Proof.
  intros (Hacc & Hnd & Hends & Hadj) He.
  destruct (Hends e He) as [H1 H2]. unfold add_edge.
  assert (add_node e.1 g = g) as ->
    by (unfold add_node; by destruct (decide _)).
  assert (add_node e.2 g = g) as ->
    by (unfold add_node; by destruct (decide _)).
  destruct g as [l]. f_equal. cbn [adj] in *.
  rewrite <- (list_fmap_id l) at 2. apply list_fmap_ext.
  intros k [u nbrs] Hin. apply list_elem_of_lookup_2 in Hin.
  unfold add_successor. simpl. destruct (decide (u = e.1)) as [->|]; [|done].
  destruct (decide _) as [|Hn]; [done|]. exfalso. apply Hn.
  rewrite (Hadj _ _ Hin). apply list_elem_of_fmap. exists e.
  split; [done|]. by apply list_elem_of_filter.
Qed.

Lemma built_from_add_edge (acc : list (nat * nat)) (e : nat * nat)
    (g : DiGraph) :
  built_from acc g -> built_from (see acc e) (add_edge e g).
Proof.
  intros Hb. unfold see. destruct (decide _) as [He|He].
  { by rewrite (add_edge_again acc). }
  apply (built_from_add_node acc e.1), (built_from_add_node acc e.2) in Hb.
  destruct Hb as (Hacc & Hnd & Hends & Hadj).
  split; [|split; [|split]].
  - apply NoDup_app. split; [done|]. split; [|apply NoDup_singleton].
    intros w Hw Hw'. apply list_elem_of_singleton in Hw'. by subst.
  - by rewrite nodes_add_edge.
  - intros e' He'. rewrite nodes_add_edge.
    apply elem_of_app in He' as [He'|He']; [auto|].
    apply list_elem_of_singleton in He' as ->.
    rewrite !elem_of_nodes_add_node. auto.
  - unfold add_edge. cbn [adj]. intros u nbrs Hu.
    apply list_elem_of_fmap in Hu as ([u' nbrs'] & Heq & Hin).
    pose proof (Hadj _ _ Hin) as Hn'. rewrite filter_app, fmap_app.
    unfold add_successor in Heq. simpl in Heq.
    destruct (decide (u' = e.1)) as [->|Hu'].
    + destruct (decide _) as [Hv|Hv].
      * exfalso. apply He. rewrite Hn' in Hv.
        apply list_elem_of_fmap in Hv as ([i j] & Hj & Hij).
        apply list_elem_of_filter in Hij as [Hi Hij]. simpl in *.
        destruct e. simpl in *. by subst.
      * injection Heq as -> ->. rewrite <- Hn'.
        rewrite filter_cons, filter_nil. by destruct (decide _).
    + injection Heq as -> ->. rewrite <- Hn'.
      rewrite filter_cons, filter_nil.
      destruct (decide _) as [Heq|]; [by symmetry in Heq|].
      simpl. by rewrite app_nil_r.
Qed.

Lemma built_from_add_edges_from (es acc : list (nat * nat)) (g : DiGraph) :
  built_from acc g ->
  built_from (fold_left see es acc) (add_edges_from es g).
Proof.
  revert acc g. induction es as [|e es IH]; intros acc g Hb; [done|].
  unfold add_edges_from in *. simpl. by apply IH, built_from_add_edge.
Qed.

Lemma built_from_seen (es : list (nat * nat)) :
  built_from (seen es) (add_edges_from es (mkDiGraph [])).
Proof. apply built_from_add_edges_from, built_from_nil. Qed.

Lemma elem_of_grouped (ns : list nat) (es : list (nat * nat))
    (e : nat * nat) :
  e ∈ grouped ns es <-> e.1 ∈ ns /\ e ∈ es.
Proof.
  unfold grouped. rewrite list_elem_of_bind. split.
  - intros (u & He & Hu). apply list_elem_of_filter in He as [-> He]. done.
  - intros [Hu He]. exists e.1. split; [|done]. by apply list_elem_of_filter.
Qed.

Lemma NoDup_grouped (ns : list nat) (es : list (nat * nat)) :
  NoDup ns -> NoDup es -> NoDup (grouped ns es).
Proof.
  intros Hns Hes. unfold grouped. apply NoDup_bind; [| |done].
  - intros u u' e _ _ He He'.
    apply list_elem_of_filter in He as [<- _].
    by apply list_elem_of_filter in He' as [<- _].
  - intros u _. by apply NoDup_filter.
Qed.

Lemma grouped_Permutation (ns : list nat) (es : list (nat * nat)) :
  NoDup ns -> NoDup es -> (forall e, e ∈ es -> e.1 ∈ ns) ->
  grouped ns es ≡ₚ es.
Proof.
  intros Hns Hes Hsrc. apply NoDup_Permutation; [by apply NoDup_grouped|done|].
  intros e. rewrite elem_of_grouped. split; [tauto|]. intros He. auto.
Qed.

Lemma edges_add_edges_from (es : list (nat * nat)) :
  let g := add_edges_from es (mkDiGraph []) in
  nodes g = seen (end_points es) /\
  edges g = grouped (nodes g) (seen es) /\
  NoDup (edges g) /\
  edges g ≡ₚ seen es.
Proof.
  intros g. pose proof (built_from_seen es) as Hb. fold g in Hb.
  pose proof (edges_built_from _ _ Hb) as He.
  destruct Hb as (Hacc & Hnd & Hends & _).
  split; [apply nodes_add_edges_from|]. split; [done|]. rewrite He. split.
  - by apply NoDup_grouped.
  - apply grouped_Permutation; [done..|]. intros e Hin. by apply Hends.
Qed.

Lemma filter_source_absent (f : nat -> nat) (u : nat) (l : list nat) :
  u ∉ l -> filter (fun e => e.1 = u) ((fun i => (i, f i)) <$> l) = [].
Proof.
  intros Hu. induction l as [|x l IH]; [done|].
  apply not_elem_of_cons in Hu as [Hx Hu]. rewrite fmap_cons, filter_cons.
  simpl. destruct (decide (x = u)) as [->|]; [done|]. by apply IH.
Qed.

Lemma filter_source_present (f : nat -> nat) (u : nat) (l : list nat) :
  NoDup l -> u ∈ l ->
  filter (fun e => e.1 = u) ((fun i => (i, f i)) <$> l) = [(u, f u)].
Proof.
  intros Hnd Hu. induction l as [|x l IH]; [by apply elem_of_nil in Hu|].
  apply NoDup_cons in Hnd as [Hx Hnd]. rewrite fmap_cons, filter_cons. simpl.
  destruct (decide (x = u)) as [->|Hne].
  - by rewrite filter_source_absent.
  - apply elem_of_cons in Hu as [->|Hu]; [done|]. by apply IH.
Qed.

Lemma grouped_function (f : nat -> nat) (ns l : list nat) :
  NoDup l -> (forall u, u ∈ ns -> u ∈ l) ->
  grouped ns ((fun i => (i, f i)) <$> l) = (fun i => (i, f i)) <$> ns.
Proof.
  intros Hnd Hsub. unfold grouped. induction ns as [|u ns IH]; [done|].
  rewrite bind_cons, fmap_cons, filter_source_present;
    [|done|apply Hsub, list_elem_of_here].
  simpl. f_equal. apply IH. intros v Hv. by apply Hsub, list_elem_of_further.
Qed.

Lemma degrees_ok_Permutation (n : nat) (E E' : list (nat * nat)) :
  E ≡ₚ E' -> degrees_ok n E = degrees_ok n E'.
Proof.
  intros HP. unfold degrees_ok. rewrite (Permutation_length HP). f_equal.
  induction (range n) as [|v l IH]; [done|]. simpl. rewrite IH. f_equal.
  assert (filter (fun e => e.1 = v) E ≡ₚ filter (fun e => e.1 = v) E') as H1
    by (by rewrite HP).
  assert (filter (fun e => e.2 = v) E ≡ₚ filter (fun e => e.2 = v) E') as H2
    by (by rewrite HP).
  by rewrite (Permutation_length H1), (Permutation_length H2).
Qed.

(** ** Running the sentinel cell again *)

Lemma matrix_ext (n : nat) (A B : matrix) :
  shape n A -> shape n B ->
  (forall i j, (i < n)%nat -> (j < n)%nat -> get A i j = get B i j) ->
  A = B.
Proof.
  intros [HlA HrA] [HlB HrB] Hget. apply list_eq. intros i.
  destruct (decide (i < n)%nat) as [Hi|Hi].
  - destruct (lookup_lt_is_Some_2 A i ltac:(lia)) as [ra Hra].
    destruct (lookup_lt_is_Some_2 B i ltac:(lia)) as [rb Hrb].
    rewrite Hra, Hrb. f_equal. apply list_eq. intros j.
    pose proof (Forall_lookup_1 _ _ _ _ HrA Hra) as Hla.
    pose proof (Forall_lookup_1 _ _ _ _ HrB Hrb) as Hlb.
    simpl in Hla, Hlb.
    destruct (decide (j < n)%nat) as [Hj|Hj].
    + specialize (Hget i j Hi Hj). unfold get in Hget.
      by rewrite Hra, Hrb in Hget.
    + by rewrite !lookup_ge_None_2 by lia.
  - by rewrite !lookup_ge_None_2 by lia.
Qed.

Lemma get_set_diagonal (n : nat) (M : matrix) (i j : nat) :
  shape n M -> (i < n)%nat -> (j < n)%nat ->
  get (set_diagonal n M) i j =
  if decide (i = j) then Some sentinel else get M i j.
Proof.
  intros HM Hi Hj.
  assert (Forall (fun k => (k < n)%nat) (range n)) as Hr
    by (apply Forall_forall; intros k; apply elem_of_range).
  destruct (set_diagonal_spec n M (range n) HM Hr) as (_ & Hd & Ho).
  unfold set_diagonal. destruct (decide (i = j)) as [->|Hij].
  - apply Hd. by apply elem_of_range.
  - apply Ho. tauto.
Qed.

(** ** Keys and extracted pairs *)

Lemma NoDup_x_keys (lbl : list nat) : NoDup lbl -> NoDup (x_keys lbl).
Proof.
  intros Hnd. unfold x_keys. apply NoDup_bind; [| |done].
  - intros i i' k _ _ Hk Hk'.
    apply list_elem_of_bind in Hk as (j & Hk & _).
    apply list_elem_of_bind in Hk' as (j' & Hk' & _).
    apply list_elem_of_ret in Hk, Hk'. congruence.
  - intros i _. rewrite bind_ret_fmap.
    apply NoDup_fmap_2_strong; [|done]. intros j j' _ _ Heq. by injection Heq.
Qed.

Lemma get_edges_filter (keys : list (nat * nat)) (sol : solution_values) :
  get_edges (items keys sol) =
  filter (fun k => Qeq_bool (sol (x_ k.1 k.2)) 1 = true) keys.
Proof.
  induction keys as [|k keys IH]; [done|].
  unfold items, get_edges in *. cbn [map]. rewrite bind_cons, IH, filter_cons.
  cbn [fst snd]. destruct (Qeq_bool _ _); by destruct (decide _).
Qed.

Lemma last_elem_of (w : list nat) (v : nat) : List.last w v ∈ v :: w.
Proof.
  revert v. induction w as [|v' w IH]; intros v; [apply list_elem_of_here|].
  rewrite last_cons_cons. apply list_elem_of_further, IH.
Qed.

(** ** The helper [exclude] and the size of the model *)

Lemma mtz_count (n : nat) :
  (1 <= n)%nat ->
  Z.of_nat ((n - 1) * (n - 2)) = (Z.of_nat n - 1) * (Z.of_nat n - 2).
Proof.
  intros Hn. rewrite Nat2Z.inj_mul.
  destruct (decide (n = 1%nat)) as [->|]; [reflexivity|].
  rewrite !Nat2Z.inj_sub by lia. reflexivity.
Qed.

(** X1: the assembled model has n² binary variables and [n] integer
    variables.  With one location or more it has 3n + (n-1)(n-2)
    constraints, of which (n-1)(n-2) are MTZ constraints, the products
    taken over the integers; with no location it has no constraint at
    all, where the formula would give 2. *)
Theorem model_size (n : nat) :
  let N := Z.of_nat n in
  exists k m : nat,
    information (build_model n) = ((n * n)%nat, n, k) /\
    length (c_1_13 N (range n)) = m /\
    ((1 <= n)%nat ->
       Z.of_nat k = 3 * N + (N - 1) * (N - 2) /\
       Z.of_nat m = (N - 1) * (N - 2)) /\
    (n = 0%nat -> k = 0%nat /\ m = 0%nat).
Proof.
  intros N. subst N. eexists _, _. split; [|split; [reflexivity|]].
  - unfold information. cbn [build_model binary_vars integer_vars constraints].
    assert (length (range n) = n) as Hn by (unfold range; apply length_seq).
    unfold x_keys, u_keys.
    rewrite length_pairs, !bind_ret_fmap, !length_fmap, Hn. reflexivity.
  - assert (length (range n) = n) as Hn by (unfold range; apply length_seq).
    rewrite !length_app, length_c_1_13. unfold c_1_4, c_1_5, c_1_14.
    rewrite !bind_ret_fmap, !length_fmap, Hn. split.
    + intros Hn1. rewrite !Nat2Z.inj_add, mtz_count by done. split; lia.
    + intros ->. done.
Qed.

Lemma model_size_witness :
  exists k m : nat,
    information (build_model 5) = (25, 5, k)%nat /\
    Z.of_nat k = 27 /\ Z.of_nat m = 12.
Proof.
  destruct (model_size 5) as (k & m & Hinfo & _ & Hpos & _).
  exists k, m. split; [exact Hinfo|]. apply Hpos. lia.
Defined.



(** ** Lookups *)

(** X3: the lookups stop at the first failure.  When the pair of nodes
    [(i,j)] is the first, in the order of the two loops, whose lookup
    fails, exactly the i·n + j + 1 pairs up to and including it have
    been looked up, and the filling of the matrix, and with it the
    notebook, raises the failure of that pair. *)
Theorem lookups_stop_at_first_failure
    (directions : string -> string -> option Z) (location : list string)
    (i j : nat) :
  let n := length location in
  (i < n)%nat -> (j < n)%nat ->
  (forall i' j', (i' < n)%nat -> (j' < n)%nat ->
     (i' < i)%nat \/ (i' = i /\ (j' < j)%nat) ->
     is_Some (directions (place location i') (place location j'))) ->
  directions (place location i) (place location j) = None ->
  fill_cost directions location [] =
    (calls_until location i j,
     Raise (LookupFailed (place location i) (place location j))) /\
  length (calls_until location i j) = (i * n + j + 1)%nat /\
  forall solver,
    run directions solver location [] =
    (calls_until location i j,
     Raise (LookupFailed (place location i) (place location j))).
Proof.
  intros n Hi Hj Hok Hnone.
  assert (fill_cost directions location [] =
          (calls_until location i j,
           Raise (LookupFailed (place location i) (place location j))))
    as Hfill.
  { unfold fill_cost. fold n. rewrite (range_split n i Hi).
    rewrite (for_each_fails_at _ _ _ _
               (fun i' => (fun j' => (place location i', place location j'))
                            <$> range n)
               (fun i' M => write_row directions location i' (range n) M)
               ((fun j' => (place location i, place location j'))
                  <$> range (S j))
               (LookupFailed (place location i) (place location j))).
    - simpl. unfold calls_until. fold n. f_equal. f_equal.
      rewrite bind_fmap_concat. apply (f_equal (@concat _)), list_fmap_ext.
      intros _ i' _. symmetry. apply bind_ret_fmap.
    - intros i' Hi' M log. apply elem_of_range in Hi'.
      apply fill_row_ok; [lia|]. intros j' Hj'. apply Hok; [lia|done|lia].
    - intros M log. apply fill_row_fails_at; [done..| |done].
      intros j' Hj'. apply Hok; [done|lia|lia]. }
  split; [exact Hfill|]. split; [apply length_calls_until|].
  intros solver. unfold run, assemble, cell_cost, bind. by rewrite Hfill.
Qed.

Lemma lookups_stop_at_first_failure_witness :
  fill_cost blocked_route three_places [] =
    (calls_until three_places 1 2, Raise (LookupFailed "b" "c")) /\
  length (calls_until three_places 1 2) = 6%nat.
Proof.
  destruct (lookups_stop_at_first_failure blocked_route three_places 1 2)
    as (Hfill & Hlen & _).
  - simpl. lia.
  - simpl. lia.
  - intros i' j' Hi' Hj' Hbefore. simpl in Hi', Hj'.
    below i' Hi'; below j' Hj'; try (exfalso; lia); vm_compute; eauto.
  - reflexivity.
  - split; [exact Hfill|exact Hlen].
Defined.

(** ** Feasible assignments and tours *)

(** X4: a feasible assignment that selects no self-arc is a tour.  Its
    selected arcs are exactly the arcs of one cyclic sequence that
    starts at node 0 and visits each of the [n] nodes once: the degree
    and MTZ constraints leave no room for sub-cycles. *)
Theorem feasible_without_self_arcs_is_a_tour (n : nat) (a : assignment) :
  feasible (build_model n) a ->
  (forall i, (i < n)%nat -> a (x_ i i) = 0) ->
  exists tour,
    hamiltonian n tour /\
    ((0 < n)%nat -> head tour = Some 0%nat) /\
    forall i j, (i < n)%nat -> (j < n)%nat ->
      (selected a i j <-> succ_of tour i = j).
Proof.
  intros Hf Hno. apply feasible_build_model in Hf.
  destruct (decide (n = 0%nat)) as [->|Hn].
  - exists []. split; [unfold hamiltonian; reflexivity|].
    split; intros; lia.
  - destruct (returns_to_0 n a Hf Hno ltac:(lia)) as (m & Hm & Hback & Hfirst).
    exists (walk_from_0 n a m). split; [|split].
    + apply walk_hamiltonian; try done. lia.
    + intros _. rewrite head_lookup. by rewrite walk_lookup by lia.
    + intros i j Hi Hj.
      rewrite (walk_succ_of n a Hf Hno m) by (done || lia).
      split; [intros Hsel; symmetry; by apply successor_unique|].
      intros <-. by apply successor_spec.
Qed.

Lemma printed_solution_no_self_arc (i : nat) :
  (i < 5)%nat -> printed_solution (x_ i i) = 0.
Proof. intros Hi. below i Hi; reflexivity. Qed.

Lemma feasible_without_self_arcs_is_a_tour_witness :
  exists tour,
    hamiltonian 5 tour /\
    forall i j, (i < 5)%nat -> (j < 5)%nat ->
      (selected printed_solution i j <-> succ_of tour i = j).
Proof.
  destruct (feasible_without_self_arcs_is_a_tour 5 printed_solution
              printed_solution_feasible printed_solution_no_self_arc)
    as (tour & Ht & _ & Harcs).
  exists tour. split; [exact Ht|exact Harcs].
Defined.

(** X5: on the assignment of a tour the objective is the travelling
    time of the tour: the sum of the entries [M[i][succ(i)]] over the
    nodes, which for two nodes or more contains no sentinel. *)
Theorem objective_of_a_tour (n : nat) (M : matrix) (tour : list nat) :
  shape n M -> hamiltonian n tour ->
  (value (tour_assignment tour) (loss (build_model n) (set_diagonal n M)) ==
   tour_cost n (set_diagonal n M) tour)%Q /\
  ((2 <= n)%nat ->
   (value (tour_assignment tour) (loss (build_model n) (set_diagonal n M)) ==
    tour_cost n M tour)%Q).
Proof.
  intros HM Ht. pose proof (set_diagonal_shape n M HM) as HC.
  split; [by apply tour_value|]. intros Hn.
  rewrite (tour_value n _ _ HC Ht). by apply tour_cost_set_diagonal.
Qed.

Lemma objective_of_a_tour_witness :
  (value (tour_assignment [0; 1]%nat)
     (loss (build_model 2) (set_diagonal 2 (zeros 2))) ==
   tour_cost 2 (zeros 2) [0; 1]%nat)%Q.
Proof.
  destruct (objective_of_a_tour 2 (zeros 2) [0; 1]%nat) as [_ H].
  - split; [reflexivity|repeat constructor].
  - apply (bool_decide_unpack _). vm_compute. exact I.
  - apply H. lia.
Defined.

Lemma cheap_zeros_2 : cheap 2 (zeros 2).
Proof.
  split.
  - intros i j Hi Hj _. below i Hi; below j Hj; vm_compute; discriminate.
  - exists 0%Q. split; [|vm_compute; reflexivity].
    intros i j Hi Hj _. below i Hi; below j Hj; vm_compute; discriminate.
Qed.

(** X6: with two nodes or more, non-negative travel times and [n] times
    the largest of them below 1e12, the model has an optimal solution:
    the assignment of a cheapest tour, found by trying all cyclic
    sequences, is optimal, and its objective value is the travelling
    time of that tour. *)
Theorem cheapest_tour_is_optimal (n : nat) (M : matrix) :
  shape n M -> cheap n M -> (2 <= n)%nat ->
  hamiltonian n (cheapest_tour n M) /\
  optimal (build_model n) (loss (build_model n) (set_diagonal n M))
    (tour_assignment (cheapest_tour n M)) /\
  (value (tour_assignment (cheapest_tour n M))
     (loss (build_model n) (set_diagonal n M)) ==
   tour_cost n M (cheapest_tour n M))%Q.
Proof.
  intros HM Hcheap Hn. destruct (cheapest_tour_spec n M) as [Hbest _].
  pose proof (set_diagonal_shape n M HM) as HC.
  split; [done|]. split; [by apply cheapest_tour_optimal|].
  rewrite (tour_value n _ _ HC Hbest). by apply tour_cost_set_diagonal.
Qed.

Lemma cheapest_tour_is_optimal_witness :
  optimal (build_model 2) (loss (build_model 2) (set_diagonal 2 (zeros 2)))
    (tour_assignment (cheapest_tour 2 (zeros 2))).
Proof.
  apply (cheapest_tour_is_optimal 2 (zeros 2)).
  - split; [reflexivity|repeat constructor].
  - apply cheap_zeros_2.
  - lia.
Defined.

(** X7: with two nodes or more, non-negative travel times and [n] times
    the largest of them below 1e12, every optimal solution of the model
    is a cheapest tour: its selected arcs are those of a cyclic
    sequence through all nodes, its objective value is the travelling
    time of that sequence, and no cyclic sequence through all nodes
    takes less time. *)
Theorem optimum_is_a_cheapest_tour (n : nat) (M : matrix) (a : assignment) :
  shape n M -> cheap n M -> (2 <= n)%nat ->
  optimal (build_model n) (loss (build_model n) (set_diagonal n M)) a ->
  exists tour,
    hamiltonian n tour /\
    (forall i j, (i < n)%nat -> (j < n)%nat ->
       (selected a i j <-> succ_of tour i = j)) /\
    (value a (loss (build_model n) (set_diagonal n M)) ==
     tour_cost n M tour)%Q /\
    forall tour', hamiltonian n tour' ->
      (tour_cost n M tour <= tour_cost n M tour')%Q.
Proof.
  intros HM Hcheap Hn [Ha Hopt].
  pose proof (set_diagonal_shape n M HM) as HC.
  assert (hamiltonian n (range n)) as Hid by (unfold hamiltonian; done).
  pose proof (Hopt _ (proj2 (feasible_build_model n _) (tour_feasible n _ Hid)))
    as Hle.
  pose proof (tour_below_sentinel n M _ HM Hcheap Hn Hid) as Hlt.
  assert (value a (loss (build_model n) (set_diagonal n M)) < sentinel)%Q
    as Hcheaper by lra.
  pose proof (cheaper_has_no_self_arc n M a HM Hcheap Ha Hcheaper) as Hno.
  destruct (tour_of_feasible n a Ha Hno)
    as (tour & Ht & Harcs).
  assert (value a (loss (build_model n) (set_diagonal n M)) ==
          tour_cost n M tour)%Q as Hval.
  { rewrite (feasible_tour_value n _ a tour HC Ha Ht Harcs).
    by apply tour_cost_set_diagonal. }
  exists tour. split; [done|]. split; [done|]. split; [done|].
  intros tour' Ht'. rewrite <- Hval.
  rewrite <- (tour_cost_set_diagonal n M tour' HM Ht' Hn).
  rewrite <- (tour_value n _ tour' HC Ht').
  apply Hopt. by apply feasible_build_model, tour_feasible.
Qed.

Lemma optimum_is_a_cheapest_tour_witness :
  exists tour,
    hamiltonian 2 tour /\
    (value (tour_assignment (cheapest_tour 2 (zeros 2)))
       (loss (build_model 2) (set_diagonal 2 (zeros 2))) ==
     tour_cost 2 (zeros 2) tour)%Q.
Proof.
  destruct (optimum_is_a_cheapest_tour 2 (zeros 2)
              (tour_assignment (cheapest_tour 2 (zeros 2))))
    as (tour & Ht & _ & Hval & _).
  - split; [reflexivity|repeat constructor].
  - apply cheap_zeros_2.
  - lia.
  - apply cheapest_tour_optimal; [|apply cheap_zeros_2|lia].
    split; [reflexivity|repeat constructor].
  - exists tour. split; [exact Ht|exact Hval].
Defined.

(** ** From the solution to the graph *)

(** X8: when the solution values are those of a feasible integer
    assignment, [get_edges] returns one pair for every node, in the
    order of the nodes: the node and its successor.  These are the
    selected arcs, [n] of them, and every node is once a source and
    once a target. *)
Theorem extraction_of_integral_solution (n : nat) (a : assignment) :
  feasible (build_model n) a ->
  let E := get_edges (items (binary_vars (build_model n)) (integral a)) in
  E = successor_arcs n a /\
  (forall i j, (i, j) ∈ E <-> (i < n)%nat /\ (j < n)%nat /\ selected a i j) /\
  length E = n /\
  degrees_ok n E = true.
Proof.
  intros Hf E. apply feasible_build_model in Hf.
  assert (E = successor_arcs n a) as ->
    by (unfold E; cbn [binary_vars build_model]; by apply get_edges_integral).
  split; [done|]. split; [|split].
  - intros i j. rewrite elem_of_successor_arcs. simpl. split.
    + intros [Hi ->]. destruct (successor_spec n a Hf i Hi). done.
    + intros (Hi & Hj & Hsel). split; [done|]. by apply successor_unique.
  - unfold successor_arcs, range. by rewrite length_fmap, length_seq.
  - by apply degrees_ok_successor_arcs.
Qed.

Lemma extraction_of_integral_solution_witness :
  get_edges (items (binary_vars (build_model 5)) (integral printed_solution)) =
  successor_arcs 5 printed_solution.
Proof.
  apply (extraction_of_integral_solution 5 printed_solution
           printed_solution_feasible).
Defined.

(** X9: [G.add_edges_from(es)] on a new graph.  The nodes of the graph
    are the end points of the edges, each once, in the order in which
    they first occur in [es].  The edges of the graph are the distinct
    edges of [es], each once, listed source by source in the order of
    the nodes and, for one source, in the order in which they first
    occur in [es].  So the graph has the edges of [es] and no other,
    and when [es] has no duplicates its edges are [es] grouped by
    source: a rearrangement of [es], which is [es] itself only when the
    edges of [es] come so grouped. *)
Theorem digraph_keeps_each_edge_once (es : list (nat * nat)) :
  let g := add_edges_from es (mkDiGraph []) in
  nodes g = seen (end_points es) /\
  NoDup (nodes g) /\
  edges g = grouped (nodes g) (seen es) /\
  NoDup (edges g) /\
  (forall e, e ∈ edges g <-> e ∈ es) /\
  (NoDup es -> edges g = grouped (nodes g) es /\ edges g ≡ₚ es).
Proof.
  intros g.
  destruct (edges_add_edges_from es) as (Hn & He & Hnd & Hp).
  fold g in Hn, He, Hnd, Hp.
  split; [done|]. split; [rewrite Hn; apply NoDup_seen|].
  split; [done|]. split; [done|]. split.
  - intros e. by rewrite Hp, elem_of_seen.
  - intros Hes. rewrite seen_NoDup in He, Hp by done. done.
Qed.

Lemma digraph_keeps_each_edge_once_witness :
  let es := [(0, 1); (2, 0); (0, 2)]%nat in
  let g := add_edges_from es (mkDiGraph []) in
  edges g = grouped (nodes g) es /\ edges g ≡ₚ es.
Proof.
  apply (digraph_keeps_each_edge_once [(0, 1); (2, 0); (0, 2)]%nat).
  apply (bool_decide_unpack _). vm_compute. exact I.
Defined.

(** The edges [(0,1)], [(2,0)], [(0,2)], added in this order, are listed
    with the two edges that leave node 0 first; and the graph of the
    solution the notebook prints has its nodes in the order 0, 3, 1, 4,
    2 and lists its edges in that order of their sources. *)
Example edges_are_listed_by_source :
  edges (add_edges_from [(0, 1); (2, 0); (0, 2)]%nat (mkDiGraph [])) =
    [(0, 1); (0, 2); (2, 0)]%nat /\
  let g := add_edges_from
             (get_edges (items (x_keys (range 5)) (integral printed_solution)))
             (mkDiGraph []) in
  nodes g = [0; 3; 1; 4; 2]%nat /\
  edges g = [(0, 3); (3, 2); (1, 4); (4, 0); (2, 1)]%nat.
Proof. split; [reflexivity|]. split; reflexivity. Qed.

(** X10: when every lookup answers and the solver reports the values of
    a feasible integer assignment, the notebook completes.  The nodes
    of its graph are the [n] nodes, each once, in the order in which
    they first occur as end points of the arcs from node 0, 1, ... to
    their successors; the edges of the graph are these [n] arcs, one
    for every node of the graph in the order of its nodes, which is a
    rearrangement of the arcs in the order of their sources 0, 1, ...;
    every node is once a source and once a target. *)
Theorem graph_of_feasible_solution
    (directions : string -> string -> option Z) (location : list string)
    (a : assignment) :
  (forall i j, (i < length location)%nat -> (j < length location)%nat ->
     is_Some (directions (place location i) (place location j))) ->
  feasible (build_model (length location)) a ->
  exists final,
    run directions (reporting a) location [] = (all_pairs location, Ok final) /\
    nodes (G final) = seen (end_points (successor_arcs (length location) a)) /\
    nodes (G final) ≡ₚ range (length location) /\
    edges (G final) =
      (fun i => (i, successor (length location) a i)) <$> nodes (G final) /\
    edges (G final) ≡ₚ successor_arcs (length location) a /\
    degrees_ok (length location) (edges (G final)) = true.
Proof.
  intros Hsome Hf. pose proof Hf as Hf'. apply feasible_build_model in Hf'.
  unfold run, assemble, cell_cost, bind. rewrite fill_cost_ok by done.
  unfold ret, cell_graph. cbn [solution cell_solve reporting].
  eexists. split; [reflexivity|]. cbn [G model cell_solve cell_objective
    cell_sentinel cell_constraints minimize binary_vars]. unfold n.
  cbn [binary_vars build_model].
  rewrite (get_edges_integral _ a Hf').
  set (es := successor_arcs (length location) a).
  pose proof (NoDup_successor_arcs (length location) a) as Hes. fold es in Hes.
  destruct (edges_add_edges_from es) as (Hn & He & Hnd & Hp).
  rewrite seen_NoDup in He, Hp by done.
  set (g := add_edges_from es (mkDiGraph [])) in *.
  assert (nodes g ≡ₚ range (length location)) as Hnodes.
  { apply NoDup_Permutation;
      [rewrite Hn; apply NoDup_seen|apply NoDup_seq|].
    intros v. rewrite elem_of_range, Hn, elem_of_seen.
    unfold end_points. rewrite list_elem_of_bind. split.
    - intros (e & Hv & He').
      apply elem_of_successor_arcs in He' as [Hi Hj].
      apply elem_of_cons in Hv as [->|Hv]; [done|].
      apply list_elem_of_singleton in Hv as ->.
      rewrite Hj. by apply successor_spec.
    - intros Hv. exists (v, successor (length location) a v).
      split; [apply list_elem_of_here|by apply elem_of_successor_arcs]. }
  split; [done|]. split; [done|]. split; [|split; [done|]].
  - rewrite He. unfold es, successor_arcs. apply grouped_function.
    + apply NoDup_seq.
    + intros u Hu. by rewrite <- Hnodes.
  - rewrite (degrees_ok_Permutation _ _ _ Hp).
    by apply degrees_ok_successor_arcs.
Qed.

Lemma graph_of_feasible_solution_witness :
  exists final,
    run remote_directions (reporting pair_and_loop) three_places [] =
      (all_pairs three_places, Ok final) /\
    edges (G final) = (fun i => (i, successor 3 pair_and_loop i)) <$>
                        nodes (G final) /\
    edges (G final) ≡ₚ successor_arcs 3 pair_and_loop.
Proof.
  destruct (graph_of_feasible_solution remote_directions three_places
              pair_and_loop) as (final & Hrun & _ & _ & He & Hp & _).
  - intros i j _ _. unfold remote_directions. destruct (_ || _); eauto.
  - apply pair_and_loop_feasible.
  - exists final. split; [exact Hrun|]. split; [exact He|exact Hp].
Defined.

(** ** The sentinel cell *)

(** X11: the sentinel cell keeps the shape of the matrix and every
    entry off the diagonal, and running it again changes nothing. *)
Theorem sentinel_cell_again (n : nat) (M : matrix) :
  shape n M ->
  shape n (set_diagonal n M) /\
  (forall i j, (i < n)%nat -> (j < n)%nat -> i ≠ j ->
     get (set_diagonal n M) i j = get M i j) /\
  set_diagonal n (set_diagonal n M) = set_diagonal n M.
Proof.
  intros HM. pose proof (set_diagonal_shape n M HM) as HC.
  split; [done|]. split.
  - intros i j Hi Hj Hij. rewrite get_set_diagonal by done.
    destruct (decide (i = j)); [done|done].
  - apply (matrix_ext n); [by apply set_diagonal_shape|done|].
    intros i j Hi Hj. rewrite (get_set_diagonal n (set_diagonal n M)) by done.
    destruct (decide (i = j)) as [->|Hij]; [|done].
    rewrite get_set_diagonal by done. by destruct (decide (j = j)).
Qed.

Lemma sentinel_cell_again_witness :
  set_diagonal 2 (set_diagonal 2 (zeros 2)) = set_diagonal 2 (zeros 2).
Proof.
  apply (sentinel_cell_again 2 (zeros 2)).
  split; [reflexivity|repeat constructor].
Defined.

(** X12: whatever the solver answers, the pairs [get_edges] returns are
    keys of [x], in the order of the keys and each once.  The nodes of
    the graph are the end points of these pairs in the order in which
    they first occur, all of them nodes of the model; the edges of the
    graph are these pairs and no other, each once, grouped by source in
    the order of the nodes. *)
Theorem graph_edges_are_the_extracted_list (n : nat) (sol : solution_values) :
  let E := get_edges (items (binary_vars (build_model n)) sol) in
  let g := add_edges_from E (mkDiGraph []) in
  E `sublist_of` x_keys (range n) /\
  NoDup E /\
  nodes g = seen (end_points E) /\
  edges g = grouped (nodes g) E /\
  edges g ≡ₚ E /\
  forall v, v ∈ nodes g -> (v < n)%nat.
Proof.
  intros E g.
  assert (E = filter (fun k => Qeq_bool (sol (x_ k.1 k.2)) 1 = true)
                (x_keys (range n))) as HE.
  { unfold E. cbn [binary_vars build_model]. apply get_edges_filter. }
  assert (NoDup E) as Hnd
    by (rewrite HE; apply NoDup_filter, NoDup_x_keys, NoDup_seq).
  destruct (edges_add_edges_from E) as (Hn & He & _ & Hp).
  fold g in Hn, He, Hp. rewrite seen_NoDup in He, Hp by done.
  split; [rewrite HE; apply sublist_filter|]. split; [done|].
  split; [done|]. split; [done|]. split; [done|].
  intros v. rewrite Hn, elem_of_seen. unfold end_points.
  rewrite list_elem_of_bind. intros (e & Hv & Hin).
  rewrite HE in Hin. apply list_elem_of_filter in Hin as [_ Hin].
  apply elem_of_x_keys in Hin as [H1 H2]. apply elem_of_range in H1, H2.
  apply elem_of_cons in Hv as [->|Hv]; [done|].
  by apply list_elem_of_singleton in Hv as ->.
Qed.

(** ** Ranks *)

(** X13: in a feasible assignment the rank grows by at least one along
    every selected arc between two different nodes other than node 0;
    so along a path of such arcs the rank of the last node exceeds that
    of the first by at least the number of arcs, and the path has at
    most n-1 arcs. *)
Theorem ranks_grow_along_paths (n : nat) (a : assignment) (v : nat)
    (w : list nat) :
  feasible (build_model n) a ->
  along (fun i j => i ≠ j /\ selected a i j) v w ->
  Forall (inner n) (v :: w) ->
  a (u_ v) + Z.of_nat (length w) <= a (u_ (List.last w v)) /\
  (length w <= n - 1)%nat.
Proof.
  intros Hf Hw Hin. apply feasible_build_model in Hf.
  pose proof (rank_along n a Hf w v Hw Hin) as Hrank. split; [done|].
  assert (inner n (List.last w v)) as [_ Hlast]
    by apply (proj1 (Forall_forall _ _) Hin), last_elem_of.
  assert (inner n v) as [_ Hv]
    by apply (proj1 (Forall_forall _ _) Hin), list_elem_of_here.
  pose proof (tf_lb n a Hf v Hv). pose proof (tf_ub n a Hf _ Hlast). lia.
Qed.

Lemma ranks_grow_along_paths_witness :
  printed_solution (u_ 3) + 3 <= printed_solution (u_ 4).
Proof.
  apply (ranks_grow_along_paths 5 printed_solution 3 [2; 1; 4]%nat).
  - apply printed_solution_feasible.
  - simpl. repeat split; lia.
  - repeat constructor; lia.
Defined.

(** ** Self-travel times *)

(** X14: the looked-up self-travel times do not reach the model.  When
    two services answer every lookup and agree on every pair of
    different nodes, the notebook assembles the same cost matrix and
    the same model with either. *)
Theorem self_travel_times_are_discarded
    (d1 d2 : string -> string -> option Z) (location : list string) :
  (forall i j, (i < length location)%nat -> (j < length location)%nat ->
     is_Some (d1 (place location i) (place location j)) /\
     is_Some (d2 (place location i) (place location j))) ->
  (forall i j, (i < length location)%nat -> (j < length location)%nat ->
     i ≠ j ->
     d1 (place location i) (place location j) =
     d2 (place location i) (place location j)) ->
  exists s,
    assemble d1 location [] = (all_pairs location, Ok s) /\
    assemble d2 location [] = (all_pairs location, Ok s).
Proof.
  intros Hsome Hagree. unfold assemble, cell_cost, bind.
  rewrite !fill_cost_ok by (intros i j Hi Hj; by apply Hsome).
  set (k := length location).
  assert (Forall (fun i => (i < k)%nat) (range k)) as Hr
    by (apply Forall_forall; intros i; apply elem_of_range).
  destruct (write_rows_spec d1 location k (range k) (zeros k)
              (shape_zeros k) Hr) as (Hs1 & Hd1 & _).
  destruct (write_rows_spec d2 location k (range k) (zeros k)
              (shape_zeros k) Hr) as (Hs2 & Hd2 & _).
  assert (set_diagonal k (write_rows d1 location k (range k) (zeros k)) =
          set_diagonal k (write_rows d2 location k (range k) (zeros k)))
    as Heq.
  { apply (matrix_ext k); [by apply set_diagonal_shape..|].
    intros i j Hi Hj. rewrite !get_set_diagonal by done.
    destruct (decide (i = j)); [done|].
    rewrite Hd1, Hd2 by (done || by apply elem_of_range).
    unfold hours, seconds. by rewrite Hagree. }
  eexists. split; [reflexivity|]. unfold ret. f_equal. f_equal.
  unfold cell_objective, cell_sentinel, cell_constraints, n.
  cbn [cost model solution G]. fold k. by rewrite Heq.
Qed.

Lemma self_travel_times_are_discarded_witness :
  exists s,
    assemble remote_directions three_places [] = (all_pairs three_places, Ok s) /\
    assemble instant_self three_places [] = (all_pairs three_places, Ok s).
Proof.
  apply self_travel_times_are_discarded.
  - intros i j Hi Hj. simpl in Hi, Hj.
    below i Hi; below j Hj; split; vm_compute; eauto.
  - intros i j Hi Hj Hij. simpl in Hi, Hj.
    below i Hi; below j Hj; try done; reflexivity.
Defined.
